(** * numan: root finders, quadrature rules and an Euler stepper

    A shallow embedding of [numan.py].  The Python functions are duck typed
    over their numbers; called with [float] arguments they compute in
    binary64.  Every routine is written here once, over an interface
    [Number] of the operations the module uses, and is run at two
    instances: the primitive binary64 floats, which is what Python computes,
    and the canonical rationals [Qc], which is the same program text read in
    exact arithmetic.  What holds of the program text whatever the numbers
    are is proved over the interface; the algebraic identities are proved
    over [Qc]; the concrete calls are evaluated at both instances.

    Conventions of the embedding:
    - a callable [m] is a total function on numbers (the module treats it
      as pure and never catches what it raises);
    - an [int] is a [Z]; where Python promotes an [int] operand to the type
      of the other operand the embedding writes [of_int];
    - what Python raises is a [Raise] result, nothing is caught anywhere in
      the module;
    - a [while] loop runs on fuel: [None] means the fuel ran out, never that
      the Python loop stopped;
    - default arguments are passed explicitly. *)

From Stdlib Require Import ZArith String List Bool Lia.
From Stdlib Require Import QArith Qcanon Qcabs.
From Stdlib Require Import Reals Qreals Lra.
From Stdlib Require Import Floats.
Import ListNotations.

(* Decimal float literals denote the nearest binary64 value, as in Python. *)
Set Warnings "-inexact-float".

Open Scope Z_scope.

(** ** Exceptions and results *)

Inductive exn : Type :=
| ZeroDivisionError
| IndexError.

Inductive result (A : Type) : Type :=
| Ok (v : A)
| Raise (err : exn).

Arguments Ok {A} v.
Arguments Raise {A} err.

Definition bind {A B : Type} (r : result A) (k : A -> result B) : result B :=
  match r with
  | Ok v => k v
  | Raise err => Raise err
  end.

Notation "x <- c ;; k" := (bind c (fun x => k))
  (at level 61, c at next level, right associativity).

(** ** Python values that end up in a returned table or as a return value *)

Inductive value (A : Type) : Type :=
| VStr (s : string)
| VInt (k : Z)
| VNum (x : A).

Arguments VStr {A} s.
Arguments VInt {A} k.
Arguments VNum {A} x.

(** ** The numbers the routines compute with *)

Class Number (A : Type) : Type := {
  of_int : Z -> A;          (* an int operand promoted to a number *)
  lit_half : A;             (* the literal 0.5 *)
  add : A -> A -> A;
  sub : A -> A -> A;
  mul : A -> A -> A;
  div : A -> A -> A;        (* the quotient, for a divisor that is not zero *)
  absv : A -> A;            (* abs(x) *)
  is_zero : A -> bool;      (* x == 0 *)
  ge : A -> A -> bool       (* x >= y *)
}.

(** ** Builtins *)

(** [range(lo, hi)] *)
Definition range (lo hi : Z) : list Z :=
  map (fun k => lo + Z.of_nat k) (seq 0 (Z.to_nat (hi - lo))).

(** [l[i]]: a negative index counts from the end, an index out of range
    raises. *)
Definition getitem {A : Type} (l : list A) (i : Z) : result A :=
  let len := Z.of_nat (length l) in
  let j := if i <? 0 then i + len else i in
  if (0 <=? j) && (j <? len) then
    match nth_error l (Z.to_nat j) with
    | Some v => Ok v
    | None => Raise IndexError
    end
  else Raise IndexError.

(** [for i in l: st = body(st, i)], stopping at the first exception. *)
Fixpoint for_each {S : Type} (l : list Z) (st : S) (body : S -> Z -> result S)
  : result S :=
  match l with
  | [] => Ok st
  | i :: l' => st' <- body st i ;; for_each l' st' body
  end.

(** [[f(i) for i in l]], stopping at the first exception. *)
Fixpoint comprehension {B : Type} (f : Z -> result B) (l : list Z)
  : result (list B) :=
  match l with
  | [] => Ok []
  | i :: l' => v <- f i ;; vs <- comprehension f l' ;; Ok (v :: vs)
  end.

Section Operators.
Context {A : Type} `{Number A}.

(** [x / y] between two numbers. *)
Definition truediv (x y : A) : result A :=
  if is_zero y then Raise ZeroDivisionError else Ok (div x y).

(** [x / n] where [n] is an int. *)
Definition truediv_int (x : A) (n : Z) : result A :=
  if n =? 0 then Raise ZeroDivisionError else Ok (div x (of_int n)).
End Operators.

(** ** The module *)

Module Numan.
Section Routines.
Context {A : Type} `{Number A}.

(** A trace table: a list of rows, each row a Python list. *)
Definition table : Type := list (list (value A)).

Definition header : list (value A) :=
  [VStr "n"%string; VStr "xn"%string; VStr "|f(xn)|"%string].

(** *** fp (lines 15-44) *)

(** The [while] loop of [fp] (lines 33-37). *)
Fixpoint fp_while (fuel : nat) (m : A -> A) (lim : A)
    (tab : list (list A)) (sol : A) (count : Z) (spec_tab : table)
  : option table :=
  match fuel with
  | O => None
  | S fuel' =>
      if ge (absv (sub (m sol) sol)) lim then
        let tab := tab ++ [[sol; m sol]] in
        let sol := m sol in
        let count := count + 1 in
        let spec_tab := spec_tab ++ [[VInt count; VNum sol; VNum (absv (m sol))]] in
        fp_while fuel' m lim tab sol count spec_tab
      else Some spec_tab
  end.

(** One pass of the [for] loop of [fp] (lines 40-42); [count] is read,
    never written. *)
Definition fp_for_body (m : A -> A) (count : Z)
    (st : list (list A) * A * table) (k : Z) : list (list A) * A * table :=
  let '(tab, sol, spec_tab) := st in
  let tab := tab ++ [[sol; m sol]] in
  let sol := m sol in
  let spec_tab := spec_tab ++ [[VInt count; VNum sol; VNum (absv (m sol))]] in
  (tab, sol, spec_tab).

Definition fp (fuel : nat) (m : A -> A) (x0 : A) (n : Z) (lim : A)
  : option table :=
  let tab := [] in
  let sol := x0 in
  let count := 0 in
  let spec_tab :=
    [header; [VInt 0; VNum x0; VNum (absv (sub (m x0) x0))]] in
  if n =? 0 then fp_while fuel m lim tab sol count spec_tab
  else
    let '(_, _, spec_tab) :=
      fold_left (fp_for_body m count) (range 0 n) (tab, sol, spec_tab) in
    Some spec_tab.

(** *** nr (lines 47-77) *)

(** The [while] loop of [nr] (lines 66-70). *)
Fixpoint nr_while (fuel : nat) (m dm : A -> A) (lim : A)
    (tab : list (list A)) (sol : A) (count : Z) (spec_tab : table)
  : option (result table) :=
  match fuel with
  | O => None
  | S fuel' =>
      if ge (absv (m sol)) lim then
        match truediv (m sol) (dm sol) with
        | Raise err => Some (Raise err)
        | Ok q =>
            let tab := tab ++ [[sol; sub sol q]] in
            match truediv (m sol) (dm sol) with
            | Raise err => Some (Raise err)
            | Ok q' =>
                let sol := sub sol q' in
                let count := count + 1 in
                let spec_tab :=
                  spec_tab ++ [[VInt count; VNum sol; VNum (absv (m sol))]] in
                nr_while fuel' m dm lim tab sol count spec_tab
            end
        end
      else Some (Ok spec_tab)
  end.

(** One pass of the [for] loop of [nr] (lines 73-75). *)
Definition nr_for_body (m dm : A -> A)
    (st : list (list A) * A * table) (k : Z)
  : result (list (list A) * A * table) :=
  let '(tab, sol, spec_tab) := st in
  q <- truediv (m sol) (dm sol) ;;
  let tab := tab ++ [[sol; sub sol q]] in
  q' <- truediv (m sol) (dm sol) ;;
  let sol := sub sol q' in
  let spec_tab := spec_tab ++ [[VInt k; VNum sol; VNum (absv (m sol))]] in
  Ok (tab, sol, spec_tab).

Definition nr (fuel : nat) (m dm : A -> A) (x0 : A) (n : Z) (lim : A)
  : option (result table) :=
  let tab := [] in
  let sol := x0 in
  let count := 0 in
  let spec_tab := [header; [VInt 0; VNum x0; VNum (absv (m x0))]] in
  if n =? 0 then nr_while fuel m dm lim tab sol count spec_tab
  else
    Some (st <- for_each (range 1 (n + 1)) (tab, sol, spec_tab)
                         (nr_for_body m dm) ;;
          let '(_, _, spec_tab) := st in Ok spec_tab).

(** *** The quadrature rules *)

(** [x = [a + i * h for i in range(0, n + 1)]] *)
Definition points (a h : A) (n : Z) : list A :=
  map (fun i => add a (mul (of_int i) h)) (range 0 (n + 1)).

(** [lr] (lines 80-97) *)
Definition lr (m : A -> A) (a b : A) (n : Z) : result A :=
  h <- truediv_int (sub b a) n ;;
  let x := points a h n in
  let y := map m x in
  let total := of_int 0 in
  for_each (range 0 n) total
    (fun total i => yi <- getitem y i ;; Ok (add total (mul yi h))).

(** [rr] (lines 100-117) *)
Definition rr (m : A -> A) (a b : A) (n : Z) : result A :=
  h <- truediv_int (sub b a) n ;;
  let x := points a h n in
  let y := map m x in
  let total := of_int 0 in
  for_each (range 1 (n + 1)) total
    (fun total i => yi <- getitem y i ;; Ok (add total (mul yi h))).

(** [mr] (lines 120-138) *)
Definition mr (m : A -> A) (a b : A) (n : Z) : result A :=
  h <- truediv_int (sub b a) n ;;
  let x := points a h n in
  x_mid <- comprehension
             (fun i => xi <- getitem x i ;;
                       xi1 <- getitem x (i + 1) ;;
                       Ok (div (add xi xi1) (of_int 2)))
             (range 0 (Z.of_nat (length x) - 1)) ;;
  let y_mid := map m x_mid in
  let total := of_int 0 in
  for_each (range 0 n) total
    (fun total i => yi <- getitem y_mid i ;; Ok (add total (mul yi h))).

(** [t] (lines 141-158) *)
Definition t (m : A -> A) (a b : A) (n : Z) : result A :=
  h <- truediv_int (sub b a) n ;;
  let x := points a h n in
  let y := map m x in
  let total := of_int 0 in
  for_each (range 1 (n + 1)) total
    (fun total i =>
       yi <- getitem y i ;;
       yi1 <- getitem y (i - 1) ;;
       Ok (add total (mul (mul h lit_half) (add yi yi1)))).

(** [s] (lines 161-184): the string it returns for an odd [n], and the
    routine; inside the even branch [m] is rebound to [n // 2]. *)
Definition s_error : string :=
  "Error: n must be an even number for Simpson's rule"%string.

Definition s (m : A -> A) (a b : A) (n : Z) : result (value A) :=
  h <- truediv_int (sub b a) n ;;
  let x := points a h n in
  let y := map m x in
  if n mod 2 =? 0 then
    let m := n / 2 in
    let total := of_int 0 in
    total <- for_each (range 1 (m + 1)) total
      (fun total i =>
         y0 <- getitem y (2 * i - 2) ;;
         y1 <- getitem y (2 * i - 1) ;;
         y2 <- getitem y (2 * i) ;;
         Ok (add total
               (mul (div h (of_int 3))
                    (add (add y0 (mul (of_int 4) y1)) y2)))) ;;
    Ok (VNum total)
  else Ok (VStr s_error).

(** *** e (lines 187-195) *)

Definition e (m : A -> A) (a b x0 : A) (n : Z) : result A :=
  h <- truediv_int (sub b a) n ;;
  let sol := x0 in
  Ok (fold_left (fun sol k => add sol (mul h (m sol))) (range 0 n) sol).

End Routines.
End Numan.

(** ** Exact arithmetic: the canonical rationals *)

Definition Qc_of_Z (z : Z) : Qc := Q2Qc (inject_Z z).

#[export] Instance Number_Qc : Number Qc := {|
  of_int := Qc_of_Z;
  lit_half := Q2Qc (1 # 2);
  add := Qcplus;
  sub := Qcminus;
  mul := Qcmult;
  div := Qcdiv;
  absv := Qcabs;
  is_zero := fun x => Qc_eq_bool x (Q2Qc 0);
  ge := fun x y => Qle_bool (this y) (this x)
|}.

(** ** Binary64: the primitive floats *)

(** [float(z)]: the nearest binary64 value, ties to even.  An int beyond
    the range of binary64, where Python raises [OverflowError], is outside
    the model. *)
Definition float_of_Z (z : Z) : float :=
  SF2Prim (binary_normalize prec emax z 0 false).

#[export] Instance Number_float : Number float := {|
  of_int := float_of_Z;
  lit_half := 0.5%float;
  add := PrimFloat.add;
  sub := PrimFloat.sub;
  mul := PrimFloat.mul;
  div := PrimFloat.div;
  absv := PrimFloat.abs;
  is_zero := fun x => PrimFloat.eqb x 0%float;
  ge := fun x y => PrimFloat.leb y x
|}.

(** The rational a finite float stands for. *)
Definition Q_of_float (x : float) : option Q :=
  match Prim2SF x with
  | S754_zero _ => Some 0%Q
  | S754_finite sg mant ex =>
      let v := (inject_Z (Zpos mant) * Qpower 2 ex)%Q in
      Some (if sg then Qopp v else v)
  | _ => None
  end.

(** ** Reference sequences

    What the loops of the module are compared with: sums and iterates
    written by recursion on the number of terms, independently of lists,
    indices and exceptions. *)

Section Reference.
Context {A : Type} `{Number A}.

(** [0 + f lo + f (lo+1) + ... + f (lo+k-1)], added from the left as a
    Python accumulation loop does. *)
Fixpoint sum_from (f : Z -> A) (lo : Z) (k : nat) : A :=
  match k with
  | O => of_int 0
  | S k' => add (sum_from f lo k') (f (lo + Z.of_nat k'))
  end.

(** The sample point [x_i = a + i * h]. *)
Definition sample (a h : A) (i : Z) : A := add a (mul (of_int i) h).

(** The contribution of the [i]-th pair of subintervals to Simpson's rule:
    [(h/3) * (y_{2i-2} + 4*y_{2i-1} + y_{2i})]. *)
Definition simpson_term (m : A -> A) (a h : A) (i : Z) : A :=
  mul (div h (of_int 3))
      (add (add (m (sample a h (2 * i - 2)))
                (mul (of_int 4) (m (sample a h (2 * i - 1)))))
           (m (sample a h (2 * i)))).

(** The iterates [x_0 = x0], [x_{k+1} = m x_k] of fixed-point iteration. *)
Fixpoint picard (m : A -> A) (x0 : A) (k : nat) : A :=
  match k with
  | O => x0
  | S k' => m (picard m x0 k')
  end.

(** The iterates [x_0 = x0], [x_{k+1} = x_k - m x_k / dm x_k] of Newton's
    method. *)
Fixpoint newton (m dm : A -> A) (x0 : A) (k : nat) : A :=
  match k with
  | O => x0
  | S k' => let x := newton m dm x0 k' in sub x (div (m x) (dm x))
  end.

(** The iterates [y_0 = x0], [y_{k+1} = y_k + h * m y_k] of Euler's
    method. *)
Fixpoint euler (m : A -> A) (h x0 : A) (k : nat) : A :=
  match k with
  | O => x0
  | S k' => let y := euler m h x0 k' in add y (mul h (m y))
  end.

(** The row of a trace that carries step index [k], approximation [x] and
    residual [r]. *)
Definition row (k : Z) (x r : A) : list (value A) := [VInt k; VNum x; VNum r].

(** The displacement [|m x - x|] and the plain magnitude [|m x|]. *)
Definition displacement (m : A -> A) (x : A) : A := absv (sub (m x) x).
Definition magnitude (m : A -> A) (x : A) : A := absv (m x).

(** Readers of a row. *)
Definition row_step (r : list (value A)) : option Z :=
  match r with
  | [VInt k; VNum _; VNum _] => Some k
  | _ => None
  end.

Definition row_approx (r : list (value A)) : option A :=
  match r with
  | [VInt _; VNum x; VNum _] => Some x
  | _ => None
  end.

Definition row_residual (r : list (value A)) : option A :=
  match r with
  | [VInt _; VNum _; VNum res] => Some res
  | _ => None
  end.

(** The trace of a run of [nr] that reaches step [k]: the header and the
    rows of the steps [0], ..., [k]. *)
Definition nr_trace (m dm : A -> A) (x0 : A) (k : nat) : Numan.table :=
  Numan.header
    :: map (fun j => row (Z.of_nat j) (newton m dm x0 j)
                         (magnitude m (newton m dm x0 j)))
           (seq 0 (S k)).

(** ** Callables the examples are run with *)

(** [lambda x: 1] *)
Definition one : A -> A := fun _ => of_int 1.

(** [lambda x: x**2 - 2], the square written as a product. *)
Definition sq2 (x : A) : A := sub (mul x x) (of_int 2).

(** [lambda x: 2*x] *)
Definition dsq2 (x : A) : A := mul (of_int 2) x.

(** [lambda x: (x + 2/x)/2]; the division [2/x] is the quotient, the
    callable is only run away from [x = 0]. *)
Definition heron (x : A) : A := div (add x (div (of_int 2) x)) (of_int 2).

(** [lambda x: x/2 + 1], with the fixed point [2]. *)
Definition halve_add_one (x : A) : A := add (div x (of_int 2)) (of_int 1).

End Reference.

(** The rational behind each number of a table of canonical rationals. *)
Definition value_this (v : value Qc) : value Q :=
  match v with
  | VStr s => VStr s
  | VInt k => VInt k
  | VNum x => VNum (this x)
  end.

Definition table_this (tr : list (list (value Qc))) : list (list (value Q)) :=
  map (map value_this) tr.

(** ** Further callables, and the antiderivatives of the polynomial ones *)

Section Polynomials.
Context {A : Type} `{Number A}.

(** [lambda x: c*x + d] *)
Definition affine (c d : A) (x : A) : A := add (mul c x) d.

(** [lambda x: c3*x**3 + c2*x**2 + c1*x + c0], the powers written as
    products. *)
Definition cubic (c3 c2 c1 c0 : A) (x : A) : A :=
  add (add (add (mul c3 (mul x (mul x x))) (mul c2 (mul x x))) (mul c1 x)) c0.


End Polynomials.

(** The antiderivatives [c*x^2/2 + d*x] and
    [c3*x^4/4 + c2*x^3/3 + c1*x^2/2 + c0*x]. *)
Definition affine_primitive (c d x : Qc) : Qc :=
  (c * x * x / Qc_of_Z 2 + d * x)%Qc.

Definition cubic_primitive (c3 c2 c1 c0 x : Qc) : Qc :=
  (c3 * x * x * x * x / Qc_of_Z 4 + c2 * x * x * x / Qc_of_Z 3
   + c1 * x * x / Qc_of_Z 2 + c0 * x)%Qc.

(** * Builtins *)

Lemma range_length (lo hi : Z) : length (range lo hi) = Z.to_nat (hi - lo).
Proof. unfold range. now rewrite length_map, length_seq. Qed.

Lemma range_empty (lo hi : Z) : hi <= lo -> range lo hi = [].
Proof.
  intros Hle. unfold range.
  replace (Z.to_nat (hi - lo)) with 0%nat by lia. reflexivity.
Qed.

Lemma range_snoc (lo hi : Z) :
  lo <= hi -> range lo (hi + 1) = range lo hi ++ [hi].
Proof.
  intros Hle. unfold range.
  replace (Z.to_nat (hi + 1 - lo)) with (S (Z.to_nat (hi - lo))) by lia.
  rewrite seq_S, map_app. cbn [map Nat.add]. do 3 f_equal. lia.
Qed.

Lemma range_cons (lo hi : Z) :
  lo < hi -> range lo hi = lo :: range (lo + 1) hi.
Proof.
  intros Hlt. unfold range.
  replace (Z.to_nat (hi - lo)) with (S (Z.to_nat (hi - (lo + 1)))) by lia.
  cbn [seq map]. rewrite <- seq_shift, map_map. f_equal; [lia |].
  apply map_ext. intros j. lia.
Qed.

Lemma seq_shift_by (k start len : nat) :
  seq (k + start) len = map (Nat.add k) (seq start len).
Proof.
  revert start. induction len as [| len IH]; intros start; [reflexivity |].
  cbn [seq map]. f_equal. rewrite <- IH. f_equal. lia.
Qed.

Lemma range_app (lo mid hi : Z) :
  lo <= mid <= hi -> range lo hi = range lo mid ++ range mid hi.
Proof.
  intros Hmid. unfold range.
  replace (Z.to_nat (hi - lo))
    with (Z.to_nat (mid - lo) + Z.to_nat (hi - mid))%nat by lia.
  rewrite seq_app, map_app. f_equal.
  rewrite Nat.add_0_l, <- (Nat.add_0_r (Z.to_nat (mid - lo))).
  rewrite seq_shift_by, map_map.
  apply map_ext. intros j. lia.
Qed.

Lemma range_nth (lo hi : Z) (j : nat) :
  (j < Z.to_nat (hi - lo))%nat ->
  nth_error (range lo hi) j = Some (lo + Z.of_nat j).
Proof.
  intros Hj. unfold range.
  rewrite nth_error_map, nth_error_seq.
  destruct (Nat.ltb_spec j (Z.to_nat (hi - lo))) as [_ | Hge]; [reflexivity | lia].
Qed.

Lemma range_in (lo hi i : Z) : In i (range lo hi) <-> lo <= i < hi.
Proof.
  unfold range. rewrite in_map_iff. split.
  - intros (j & <- & Hj). apply in_seq in Hj. lia.
  - intros Hi. exists (Z.to_nat (i - lo)). split; [lia |].
    apply in_seq. lia.
Qed.

(** An index inside the list reads the element, no exception. *)
Lemma getitem_inside {B : Type} (l : list B) (i : Z) (v : B) :
  0 <= i -> nth_error l (Z.to_nat i) = Some v -> getitem l i = Ok v.
Proof.
  intros Hi Hnth. unfold getitem.
  assert (Hlt : (Z.to_nat i < length l)%nat).
  { apply nth_error_Some. congruence. }
  destruct (Z.ltb_spec i 0) as [Hneg | _]; [lia |].
  destruct (Z.leb_spec 0 i) as [_ | Hneg]; [| lia].
  destruct (Z.ltb_spec i (Z.of_nat (length l))) as [_ | Hbig]; [| lia].
  cbn [andb]. now rewrite Hnth.
Qed.

Lemma getitem_map_range {B : Type} (f : Z -> B) (len i : Z) :
  0 <= i < len -> getitem (map f (range 0 len)) i = Ok (f i).
Proof.
  intros Hi. apply getitem_inside; [lia |].
  rewrite nth_error_map, range_nth by lia.
  cbn [option_map]. do 2 f_equal. lia.
Qed.

(** A loop whose body never raises is a left fold. *)
Lemma for_each_pure {S : Type} (g : S -> Z -> S) (body : S -> Z -> result S)
    (l : list Z) (st : S) :
  (forall st' i, In i l -> body st' i = Ok (g st' i)) ->
  for_each l st body = Ok (fold_left g l st).
Proof.
  revert st. induction l as [| i l IH]; intros st Hbody; [reflexivity |].
  cbn [for_each fold_left]. rewrite Hbody by (left; reflexivity).
  cbn [bind]. apply IH. intros st' j Hj. apply Hbody. now right.
Qed.

(** A loop over a concatenation runs the second list from the state the
    first one leaves, unless the first one raises. *)
Lemma for_each_app {S : Type} (body : S -> Z -> result S)
    (l1 l2 : list Z) (st : S) :
  for_each (l1 ++ l2) st body
  = (st' <- for_each l1 st body ;; for_each l2 st' body).
Proof.
  revert st. induction l1 as [| i l1 IH]; intros st; [reflexivity |].
  cbn [app for_each]. destruct (body st i) as [st' | err]; cbn [bind].
  - apply IH.
  - reflexivity.
Qed.

Lemma comprehension_pure {B : Type} (f : Z -> B) (body : Z -> result B)
    (l : list Z) :
  (forall i, In i l -> body i = Ok (f i)) ->
  comprehension body l = Ok (map f l).
Proof.
  induction l as [| i l IH]; intros Hbody; [reflexivity |].
  cbn [comprehension map]. rewrite Hbody by (left; reflexivity).
  cbn [bind]. rewrite IH; [reflexivity |].
  intros j Hj. apply Hbody. now right.
Qed.

(** * The routines as sums and iterates, at every number type *)

Section Generic.
Context {A : Type} `{Number A}.

Lemma truediv_int_pos (x : A) (n : Z) :
  0 < n -> truediv_int x n = Ok (div x (of_int n)).
Proof.
  intros Hn. unfold truediv_int.
  destruct (Z.eqb_spec n 0) as [-> | _]; [lia | reflexivity].
Qed.

Lemma fold_range_sum (f : Z -> A) (lo : Z) (k : nat) :
  fold_left (fun total i => add total (f i)) (range lo (lo + Z.of_nat k))
            (of_int 0)
  = sum_from f lo k.
Proof.
  induction k as [| k IH].
  - rewrite range_empty by lia. reflexivity.
  - replace (lo + Z.of_nat (S k)) with (lo + Z.of_nat k + 1) by lia.
    rewrite range_snoc by lia.
    rewrite fold_left_app, IH. reflexivity.
Qed.

Lemma getitem_samples (m : A -> A) (a h : A) (n i : Z) :
  0 <= i <= n ->
  getitem (map m (Numan.points a h n)) i = Ok (m (sample a h i)).
Proof.
  intros Hi. unfold Numan.points. rewrite map_map.
  apply (getitem_map_range (fun j => m (sample a h j))). lia.
Qed.

Lemma getitem_points (a h : A) (n i : Z) :
  0 <= i <= n -> getitem (Numan.points a h n) i = Ok (sample a h i).
Proof.
  intros Hi. unfold Numan.points.
  apply (getitem_map_range (sample a h)). lia.
Qed.

(** A loop that accumulates [term i] over [range lo hi], reading its
    operands without raising, returns the sum of the terms. *)
Lemma accumulate_sum (body : A -> Z -> result A) (term : Z -> A)
    (lo hi : Z) (k : nat) :
  k = Z.to_nat (hi - lo) ->
  (forall total i, lo <= i < hi -> body total i = Ok (add total (term i))) ->
  for_each (range lo hi) (of_int 0) body = Ok (sum_from term lo k).
Proof.
  intros Hk Hbody.
  rewrite (for_each_pure (fun total i => add total (term i))).
  - rewrite <- fold_range_sum. do 2 f_equal.
    unfold range. do 2 f_equal. lia.
  - intros total i Hi. apply Hbody. now apply range_in.
Qed.

Lemma lr_sum (m : A -> A) (a b : A) (n : Z) :
  0 < n ->
  let h := div (sub b a) (of_int n) in
  Numan.lr m a b n
  = Ok (sum_from (fun i => mul (m (sample a h i)) h) 0 (Z.to_nat n)).
Proof.
  intros Hn h. unfold Numan.lr. rewrite truediv_int_pos by exact Hn.
  cbn [bind]. fold h.
  apply accumulate_sum; [lia |]. intros total i Hi.
  rewrite getitem_samples by lia. reflexivity.
Qed.

Lemma rr_sum (m : A -> A) (a b : A) (n : Z) :
  0 < n ->
  let h := div (sub b a) (of_int n) in
  Numan.rr m a b n
  = Ok (sum_from (fun i => mul (m (sample a h i)) h) 1 (Z.to_nat n)).
Proof.
  intros Hn h. unfold Numan.rr. rewrite truediv_int_pos by exact Hn.
  cbn [bind]. fold h.
  apply accumulate_sum; [lia |]. intros total i Hi.
  rewrite getitem_samples by lia. reflexivity.
Qed.

Lemma t_sum (m : A -> A) (a b : A) (n : Z) :
  0 < n ->
  let h := div (sub b a) (of_int n) in
  Numan.t m a b n
  = Ok (sum_from (fun i => mul (mul h lit_half)
                               (add (m (sample a h i)) (m (sample a h (i - 1)))))
                 1 (Z.to_nat n)).
Proof.
  intros Hn h. unfold Numan.t. rewrite truediv_int_pos by exact Hn.
  cbn [bind]. fold h.
  apply accumulate_sum; [lia |]. intros total i Hi.
  rewrite !getitem_samples by lia. reflexivity.
Qed.

Lemma mr_sum (m : A -> A) (a b : A) (n : Z) :
  0 < n ->
  let h := div (sub b a) (of_int n) in
  Numan.mr m a b n
  = Ok (sum_from
          (fun i => mul (m (div (add (sample a h i) (sample a h (i + 1)))
                                (of_int 2))) h)
          0 (Z.to_nat n)).
Proof.
  intros Hn h. unfold Numan.mr. rewrite truediv_int_pos by exact Hn.
  cbn [bind]. fold h.
  assert (Hlen : Z.of_nat (length (Numan.points a h n)) - 1 = n).
  { unfold Numan.points. rewrite length_map, range_length. lia. }
  rewrite Hlen.
  rewrite (comprehension_pure
             (fun i => div (add (sample a h i) (sample a h (i + 1))) (of_int 2))).
  2:{ intros i Hi. apply range_in in Hi.
      rewrite !getitem_points by lia. reflexivity. }
  cbn [bind]. rewrite map_map.
  apply accumulate_sum; [lia |]. intros total i Hi.
  rewrite (getitem_map_range
             (fun j => m (div (add (sample a h j) (sample a h (j + 1)))
                              (of_int 2)))) by lia.
  reflexivity.
Qed.

Lemma s_even_sum (m : A -> A) (a b : A) (n : Z) :
  0 < n -> n mod 2 = 0 ->
  let h := div (sub b a) (of_int n) in
  Numan.s m a b n
  = Ok (VNum (sum_from (simpson_term m a h) 1 (Z.to_nat (n / 2)))).
Proof.
  intros Hn Heven h. unfold Numan.s. rewrite truediv_int_pos by exact Hn.
  cbn [bind]. fold h. rewrite Heven. cbn [Z.eqb].
  assert (Hhalf : n = 2 * (n / 2)) by (apply Z.div_exact; lia).
  rewrite (accumulate_sum _ (simpson_term m a h) 1 (n / 2 + 1)
             (Z.to_nat (n / 2))); [reflexivity | lia |].
  intros total i Hi.
  rewrite !getitem_samples by lia. reflexivity.
Qed.

Lemma s_odd_error (m : A -> A) (a b : A) (n : Z) :
  n mod 2 <> 0 -> Numan.s m a b n = Ok (VStr Numan.s_error).
Proof.
  intros Hodd. unfold Numan.s.
  assert (Hn : n <> 0) by (intros ->; now apply Hodd).
  unfold truediv_int.
  destruct (Z.eqb_spec n 0) as [Hz | _]; [contradiction |].
  cbn [bind].
  destruct (Z.eqb_spec (n mod 2) 0) as [Hz | _]; [contradiction | reflexivity].
Qed.

Lemma fold_iterate (f : A -> A) (l : list Z) (x : A) :
  fold_left (fun sol _ => f sol) l x = Nat.iter (length l) f x.
Proof.
  revert x. induction l as [| i l IH]; intros x; [reflexivity |].
  cbn [fold_left length]. rewrite IH. symmetry. apply Nat.iter_succ_r.
Qed.

Lemma euler_iter (m : A -> A) (h x0 : A) (k : nat) :
  euler m h x0 k = Nat.iter k (fun y => add y (mul h (m y))) x0.
Proof. induction k as [| k IH]; [reflexivity |]. cbn. now rewrite IH. Qed.

End Generic.

Section GenericSums.
Context {A : Type} `{Number A}.

Lemma sum_from_ext (f g : Z -> A) (lo : Z) (k : nat) :
  (forall i, lo <= i < lo + Z.of_nat k -> f i = g i) ->
  sum_from f lo k = sum_from g lo k.
Proof.
  induction k as [| k IH]; intros Hfg; [reflexivity |].
  cbn [sum_from]. rewrite IH, Hfg; [reflexivity | lia |].
  intros i Hi. apply Hfg. lia.
Qed.

Lemma sum_from_shift (f : Z -> A) (lo d : Z) (k : nat) :
  sum_from (fun i => f (i + d)) lo k = sum_from f (lo + d) k.
Proof.
  induction k as [| k IH]; [reflexivity |].
  cbn [sum_from]. rewrite IH. do 2 f_equal. lia.
Qed.

End GenericSums.

(** * Exact arithmetic *)

Section Exact.
Local Open Scope Qc_scope.

Lemma Qc_of_Z_0 : Qc_of_Z 0 = 0.
Proof. reflexivity. Qed.

Lemma Qc_of_Z_1 : Qc_of_Z 1 = 1.
Proof. reflexivity. Qed.

Lemma Qc_of_Z_add (x y : Z) : Qc_of_Z (x + y) = Qc_of_Z x + Qc_of_Z y.
Proof.
  unfold Qc_of_Z, Qcplus. apply Q2Qc_eq_iff.
  cbn [this Q2Qc]. rewrite !Qred_correct. now rewrite inject_Z_plus.
Qed.

Lemma Qc_of_Z_mul (x y : Z) : Qc_of_Z (x * y) = Qc_of_Z x * Qc_of_Z y.
Proof.
  unfold Qc_of_Z, Qcmult. apply Q2Qc_eq_iff.
  cbn [this Q2Qc]. rewrite !Qred_correct. now rewrite inject_Z_mult.
Qed.

Lemma Qc_of_Z_opp (x : Z) : Qc_of_Z (- x) = - Qc_of_Z x.
Proof.
  unfold Qc_of_Z, Qcopp. apply Q2Qc_eq_iff.
  cbn [this Q2Qc]. rewrite !Qred_correct. now rewrite inject_Z_opp.
Qed.

Lemma Qc_of_Z_sub (x y : Z) : Qc_of_Z (x - y) = Qc_of_Z x - Qc_of_Z y.
Proof.
  unfold Z.sub, Qcminus. now rewrite Qc_of_Z_add, Qc_of_Z_opp.
Qed.

Lemma Qc_of_Z_succ (k : nat) : Qc_of_Z (Z.of_nat (S k)) = Qc_of_Z (Z.of_nat k) + 1.
Proof. rewrite Nat2Z.inj_succ. unfold Z.succ. now rewrite Qc_of_Z_add. Qed.

Lemma Qc_of_Z_nonzero (z : Z) : (z <> 0)%Z -> Qc_of_Z z <> 0.
Proof.
  intros Hz Heq. apply Hz. unfold Qc_of_Z in Heq.
  apply Q2Qc_eq_iff in Heq. unfold Qeq in Heq. cbn in Heq. lia.
Qed.

Lemma Qc_two_nonzero : 1 + 1 <> 0.
Proof. intros Heq. apply (f_equal this) in Heq. discriminate Heq. Qed.

Lemma Qc_half : Q2Qc (1 # 2) = 1 / (1 + 1).
Proof. apply Qc_is_canon. reflexivity. Qed.

Lemma Qc_of_Z_2 : Qc_of_Z 2 = 1 + 1.
Proof. apply Qc_is_canon. reflexivity. Qed.

Lemma Qc_of_Z_3 : Qc_of_Z 3 = 1 + 1 + 1.
Proof. apply Qc_is_canon. reflexivity. Qed.

Lemma Qc_of_Z_4 : Qc_of_Z 4 = 1 + 1 + 1 + 1.
Proof. apply Qc_is_canon. reflexivity. Qed.

(** The step times the number of subintervals is the length of the
    interval. *)
Lemma step_times_count (a b : Qc) (n : Z) :
  (n <> 0)%Z -> Qc_of_Z n * ((b - a) / Qc_of_Z n) = b - a.
Proof. intros Hn. field. now apply Qc_of_Z_nonzero. Qed.

Lemma sum_from_const (c : Qc) (lo : Z) (k : nat) :
  sum_from (fun _ => c) lo k = Qc_of_Z (Z.of_nat k) * c.
Proof.
  induction k as [| k IH].
  - cbn [sum_from of_int Number_Qc Z.of_nat]. rewrite Qc_of_Z_0. ring.
  - cbn [sum_from add Number_Qc]. rewrite IH, Qc_of_Z_succ. ring.
Qed.

Lemma sum_from_peel (f : Z -> Qc) (lo : Z) (k : nat) :
  sum_from f lo (S k) = f lo + sum_from f (lo + 1) k.
Proof.
  induction k as [| k IH].
  - cbn [sum_from add of_int Number_Qc Z.of_nat]. rewrite Z.add_0_r. ring.
  - change (sum_from f lo (S (S k)))
      with (sum_from f lo (S k) + f (lo + Z.of_nat (S k))%Z).
    rewrite IH. cbn [sum_from add Number_Qc].
    replace (lo + 1 + Z.of_nat k)%Z with (lo + Z.of_nat (S k))%Z by lia.
    ring.
Qed.

Lemma sum_from_reverse (f : Z -> Qc) (k : nat) :
  sum_from (fun i => f (Z.of_nat k - i)%Z) 1 k = sum_from f 0 k.
Proof.
  revert f. induction k as [| k IH]; intros f; [reflexivity |].
  rewrite (sum_from_peel f 0 k).
  change (sum_from (fun i => f (Z.of_nat (S k) - i)%Z) 1 (S k))
    with (sum_from (fun i => f (Z.of_nat (S k) - i)%Z) 1 k
          + f (Z.of_nat (S k) - (1 + Z.of_nat k))%Z)%Qc.
  replace (Z.of_nat (S k) - (1 + Z.of_nat k))%Z with 0%Z by lia.
  rewrite (sum_from_ext (fun i => f (Z.of_nat (S k) - i)%Z)
                        (fun i => f (Z.of_nat k - i + 1)%Z))
    by (intros i _; f_equal; lia).
  pose proof (IH (fun j => f (j + 1)%Z)) as IH'. cbv beta in IH'.
  rewrite IH', sum_from_shift. ring.
Qed.

Lemma sum_from_opp (f : Z -> Qc) (lo : Z) (k : nat) :
  sum_from (fun i => - f i) lo k = - sum_from f lo k.
Proof.
  induction k as [| k IH].
  - cbn [sum_from of_int Number_Qc]. rewrite Qc_of_Z_0. ring.
  - cbn [sum_from add Number_Qc]. rewrite IH. ring.
Qed.

Lemma sum_from_mean (f g : Z -> Qc) (lo : Z) (k : nat) :
  sum_from (fun i => (f i + g i) / (1 + 1)) lo k
  = (sum_from f lo k + sum_from g lo k) / (1 + 1).
Proof.
  induction k as [| k IH].
  - cbn [sum_from of_int Number_Qc]. rewrite Qc_of_Z_0. field.
    exact Qc_two_nonzero.
  - cbn [sum_from add Number_Qc]. rewrite IH. field. exact Qc_two_nonzero.
Qed.

End Exact.

(** Side conditions of [field]: a closed rational, or the promotion of a
    non-zero int, is not zero. *)
Ltac Qc_nonzero :=
  repeat split;
  first
    [ apply Qc_of_Z_nonzero; lia
    | let Heq := fresh "Heq" in
      intros Heq; apply (f_equal this) in Heq; vm_compute in Heq;
      discriminate Heq ].

(** * Simpson's rule: the parity check *)

(** C2.  For a positive number of subintervals Simpson's rule returns the
    error string, as a value and not as an exception, exactly when [n] is
    odd; for an even [n] it returns the number obtained by adding
    [(h/3) * (y_{2i-2} + 4*y_{2i-1} + y_{2i})] over the [n/2] pairs of
    subintervals; and with [n = 3] it returns the error string. *)
Theorem s_error_iff_odd {A : Type} `{Number A} (m : A -> A) (a b : A) (n : Z) :
  0 < n ->
  ((exists msg, Numan.s m a b n = Ok (VStr msg)) <-> Z.odd n = true)
  /\ (Z.odd n = true -> Numan.s m a b n = Ok (VStr Numan.s_error))
  /\ (Z.even n = true ->
      Numan.s m a b n
      = Ok (VNum (sum_from (simpson_term m a (div (sub b a) (of_int n))) 1
                           (Z.to_nat (n / 2)))))
  /\ Numan.s m a b 3 = Ok (VStr Numan.s_error).
Proof.
  intros Hn.
  assert (Hodd : Z.odd n = true -> Numan.s m a b n = Ok (VStr Numan.s_error)).
  { intros Ho. apply s_odd_error. rewrite Zmod_odd, Ho. discriminate. }
  assert (Heven : Z.even n = true ->
                  Numan.s m a b n
                  = Ok (VNum (sum_from (simpson_term m a (div (sub b a) (of_int n)))
                                       1 (Z.to_nat (n / 2))))).
  { intros He. apply s_even_sum; [exact Hn |]. now rewrite Zmod_even, He. }
  split; [split | split; [exact Hodd | split; [exact Heven |]]].
  - intros (msg & Hmsg). destruct (Z.odd n) eqn:Ho; [reflexivity |].
    rewrite Heven in Hmsg; [discriminate Hmsg |].
    now rewrite <- Z.negb_odd, Ho.
  - intros Ho. exists Numan.s_error. now apply Hodd.
  - apply s_odd_error. discriminate.
Qed.

(** Simpson's rule on [x^2] over [[0, 3]] in binary64: six subintervals
    give [9], five give the error string. *)
Lemma s_error_iff_odd_witness :
  Numan.s (fun x : float => PrimFloat.mul x x) 0%float 3%float 6
  = Ok (VNum 9%float)
  /\ Numan.s (fun x : float => PrimFloat.mul x x) 0%float 3%float 5
     = Ok (VStr "Error: n must be an even number for Simpson's rule"%string).
Proof.
  destruct (s_error_iff_odd (fun x : float => PrimFloat.mul x x)
              0%float 3%float 6 eq_refl) as (_ & _ & Heven & _).
  destruct (s_error_iff_odd (fun x : float => PrimFloat.mul x x)
              0%float 3%float 5 eq_refl) as (_ & Hodd & _ & _).
  split.
  - rewrite (Heven eq_refl). vm_compute. reflexivity.
  - rewrite (Hodd eq_refl). reflexivity.
Defined.

(** * The Euler stepper *)

(** C6.  For a positive step count [n], [e] returns the [n]-th iterate of
    [y_0 = x0], [y_{k+1} = y_k + h * m y_k] with [h = (b - a) / n]: [n]
    updates, and the last iterate alone as the result. *)
Theorem e_returns_nth_iterate {A : Type} `{Number A}
    (m : A -> A) (a b x0 : A) (n : Z) :
  0 < n ->
  Numan.e m a b x0 n
  = Ok (euler m (div (sub b a) (of_int n)) x0 (Z.to_nat n)).
Proof.
  intros Hn. unfold Numan.e. rewrite truediv_int_pos by exact Hn.
  cbn [bind]. f_equal.
  rewrite (fold_iterate (fun y => add y (mul (div (sub b a) (of_int n)) (m y)))).
  rewrite range_length, euler_iter. do 2 f_equal. lia.
Qed.

(** Four Euler steps for [y' = y] over [[0, 1]] from [1] in binary64:
    [1.25^4]. *)
Lemma e_returns_nth_iterate_witness :
  Numan.e (fun y : float => y) 0%float 1%float 1%float 4
  = Ok 2.44140625%float.
Proof.
  rewrite (e_returns_nth_iterate (fun y : float => y) 0%float 1%float 1%float 4
             eq_refl).
  vm_compute. reflexivity.
Defined.

(** * The quadrature rules in exact arithmetic *)

Section ExactQuadrature.
Local Open Scope Qc_scope.

Lemma count_times_step (a b : Qc) (n : Z) :
  (0 < n)%Z ->
  Qc_of_Z (Z.of_nat (Z.to_nat n)) * ((b - a) / Qc_of_Z n) = b - a.
Proof.
  intros Hn. rewrite Z2Nat.id by lia. apply step_times_count. lia.
Qed.

Lemma lr_one (a b : Qc) (n : Z) : (0 < n)%Z -> Numan.lr one a b n = Ok (b - a).
Proof.
  intros Hn. rewrite lr_sum by exact Hn. cbv zeta. f_equal.
  unfold one. rewrite sum_from_const. cbn [mul div sub of_int Number_Qc].
  rewrite Qc_of_Z_1.
  rewrite <- (count_times_step a b n Hn) at 2. ring.
Qed.

Lemma rr_one (a b : Qc) (n : Z) : (0 < n)%Z -> Numan.rr one a b n = Ok (b - a).
Proof.
  intros Hn. rewrite rr_sum by exact Hn. cbv zeta. f_equal.
  unfold one. rewrite sum_from_const. cbn [mul div sub of_int Number_Qc].
  rewrite Qc_of_Z_1.
  rewrite <- (count_times_step a b n Hn) at 2. ring.
Qed.

Lemma mr_one (a b : Qc) (n : Z) : (0 < n)%Z -> Numan.mr one a b n = Ok (b - a).
Proof.
  intros Hn. rewrite mr_sum by exact Hn. cbv zeta. f_equal.
  unfold one. rewrite sum_from_const. cbn [mul div sub of_int Number_Qc].
  rewrite Qc_of_Z_1.
  rewrite <- (count_times_step a b n Hn) at 2. ring.
Qed.

Lemma t_one (a b : Qc) (n : Z) : (0 < n)%Z -> Numan.t one a b n = Ok (b - a).
Proof.
  intros Hn. rewrite t_sum by exact Hn. cbv zeta. f_equal.
  unfold one. rewrite sum_from_const.
  cbn [mul div sub add of_int lit_half Number_Qc]. rewrite Qc_of_Z_1.
  rewrite <- (count_times_step a b n Hn) at 2. rewrite Qc_half.
  field. Qc_nonzero.
Qed.

Lemma s_one (a b : Qc) (n : Z) :
  (0 < n)%Z -> Z.even n = true -> Numan.s one a b n = Ok (VNum (b - a)).
Proof.
  intros Hn He.
  assert (Hmod : (n mod 2 = 0)%Z) by now rewrite Zmod_even, He.
  rewrite s_even_sum by assumption. cbv zeta. do 2 f_equal.
  unfold simpson_term, one. rewrite sum_from_const.
  cbn [mul div sub add of_int Number_Qc]. rewrite Qc_of_Z_1.
  rewrite <- (step_times_count a b n) at 2 by lia.
  assert (Hhalf : n = (2 * (n / 2))%Z) by (apply Z.div_exact; lia).
  rewrite Z2Nat.id by lia.
  rewrite Hhalf at 3. rewrite Qc_of_Z_mul, Qc_of_Z_2, Qc_of_Z_3, Qc_of_Z_4.
  field. Qc_nonzero.
Qed.

(** The terms of the trapezoidal rule are the means of the terms of the two
    rectangle rules. *)
Lemma trapezoid_terms (y : Z -> Qc) (h : Qc) (k : nat) :
  sum_from (fun i => h * Q2Qc (1 # 2) * (y i + y (i - 1)%Z)) 1 k
  = (sum_from (fun i => y i * h) 0 k + sum_from (fun i => y i * h) 1 k)
    / Qc_of_Z 2.
Proof.
  rewrite Qc_of_Z_2.
  rewrite <- (sum_from_shift (fun i => y i * h) 1 (-1) k).
  cbn [Z.add Z.opp Pos.compare_cont Z.pos_sub].
  rewrite <- sum_from_mean. apply sum_from_ext. intros i _.
  change (i - 1)%Z with (i + -1)%Z. rewrite Qc_half.
  field. Qc_nonzero.
Qed.

(** Walking the partition of [[b, a]] from [b] visits the sample points of
    [[a, b]] in reverse. *)
Lemma sample_reversed (a b : Qc) (n i : Z) :
  (0 < n)%Z ->
  sample b ((a - b) / Qc_of_Z n) i = sample a ((b - a) / Qc_of_Z n) (n - i).
Proof.
  intros Hn. unfold sample. cbn [add mul of_int Number_Qc].
  rewrite Qc_of_Z_sub. field. apply Qc_of_Z_nonzero. lia.
Qed.

End ExactQuadrature.

(** C3, as the code has it.  In exact arithmetic, for every positive number
    of subintervals, the left, right and midpoint rectangle rules and the
    trapezoidal rule integrate [f(x) = 1] over [[a, b]] to exactly [b - a];
    Simpson's rule does so for every even [n], and for an odd [n] returns
    its error string. *)
Theorem quadrature_of_one (a b : Qc) (n : Z) :
  0 < n ->
  Numan.lr one a b n = Ok (b - a)%Qc
  /\ Numan.rr one a b n = Ok (b - a)%Qc
  /\ Numan.mr one a b n = Ok (b - a)%Qc
  /\ Numan.t one a b n = Ok (b - a)%Qc
  /\ (Z.even n = true -> Numan.s one a b n = Ok (VNum (b - a)%Qc))
  /\ (Z.odd n = true -> Numan.s one a b n = Ok (VStr Numan.s_error)).
Proof.
  intros Hn.
  repeat (split; [solve [auto using lr_one, rr_one, mr_one, t_one, s_one] |]).
  intros Ho. apply s_odd_error. rewrite Zmod_odd, Ho. discriminate.
Qed.

(** The constant [1] over [[2, 5]]: seven subintervals for the left rule,
    eight for Simpson's rule. *)
Lemma quadrature_of_one_witness :
  Numan.lr one (Qc_of_Z 2) (Qc_of_Z 5) 7 = Ok (Qc_of_Z 5 - Qc_of_Z 2)%Qc
  /\ Numan.s one (Qc_of_Z 2) (Qc_of_Z 5) 8
     = Ok (VNum (Qc_of_Z 5 - Qc_of_Z 2)%Qc).
Proof.
  split.
  - exact (proj1 (quadrature_of_one (Qc_of_Z 2) (Qc_of_Z 5) 7 eq_refl)).
  - destruct (quadrature_of_one (Qc_of_Z 2) (Qc_of_Z 5) 8 eq_refl)
      as (_ & _ & _ & _ & Heven & _).
    exact (Heven eq_refl).
Defined.

(** C3 as stated fails at Simpson's rule with an odd [n]: over [[0, 1]] with
    [n = 3] the rule returns its error string, which is not the number
    [1 - 0]. *)
Lemma simpson_of_one_odd_counterexample :
  Numan.s one (Qc_of_Z 0) (Qc_of_Z 1) 3 = Ok (VStr Numan.s_error)
  /\ Numan.s one (Qc_of_Z 0) (Qc_of_Z 1) 3
     <> Ok (VNum (Qc_of_Z 1 - Qc_of_Z 0)%Qc).
Proof. split; [reflexivity | discriminate]. Qed.

(** The identities of this part are identities of exact arithmetic: in
    binary64 the left rule on the constant [1] over [[0, 1]] with ten
    subintervals adds ten rounded steps and misses [1] by one unit in the
    last place. *)
Remark lr_of_one_binary64 :
  Numan.lr one 0%float 1%float 10 = Ok 0.99999999999999989%float.
Proof. vm_compute. reflexivity. Qed.

(** C5.  In exact arithmetic, for every positive number of subintervals, the
    trapezoidal rule is the mean of the left and the right rectangle rule
    on the same inputs. *)
Theorem t_is_mean_of_lr_rr (m : Qc -> Qc) (a b : Qc) (n : Z) :
  0 < n ->
  exists l r : Qc,
    Numan.lr m a b n = Ok l
    /\ Numan.rr m a b n = Ok r
    /\ Numan.t m a b n = Ok ((l + r) / Qc_of_Z 2)%Qc.
Proof.
  intros Hn. rewrite lr_sum, rr_sum, t_sum by exact Hn. cbv zeta.
  eexists. eexists. split; [reflexivity | split; [reflexivity |]].
  f_equal. cbn [mul add lit_half Number_Qc].
  apply (trapezoid_terms
           (fun i => m (sample a (div (sub b a) (of_int n)) i))).
Qed.

(** The three rules on [x^2] over [[0, 1]] with four subintervals. *)
Lemma t_is_mean_of_lr_rr_witness :
  exists l r : Qc,
    Numan.lr (fun x => x * x)%Qc (Qc_of_Z 0) (Qc_of_Z 1) 4 = Ok l
    /\ Numan.rr (fun x => x * x)%Qc (Qc_of_Z 0) (Qc_of_Z 1) 4 = Ok r
    /\ Numan.t (fun x => x * x)%Qc (Qc_of_Z 0) (Qc_of_Z 1) 4
       = Ok ((l + r) / Qc_of_Z 2)%Qc.
Proof.
  exact (t_is_mean_of_lr_rr (fun x => x * x)%Qc (Qc_of_Z 0) (Qc_of_Z 1) 4
           eq_refl).
Defined.

(** C10.  In exact arithmetic, for every positive number of subintervals,
    the left rule over [[a, b]] is the negated right rule over [[b, a]]. *)
Theorem lr_is_opposite_of_reversed_rr (m : Qc -> Qc) (a b : Qc) (n : Z) :
  0 < n ->
  exists r : Qc,
    Numan.rr m b a n = Ok r /\ Numan.lr m a b n = Ok (- r)%Qc.
Proof.
  intros Hn. rewrite lr_sum, rr_sum by exact Hn. cbv zeta.
  eexists. split; [reflexivity |]. f_equal.
  cbn [mul div sub of_int Number_Qc].
  set (h := ((b - a) / Qc_of_Z n)%Qc).
  rewrite (sum_from_ext
             (fun i => (m (sample b ((a - b) / Qc_of_Z n)%Qc i)
                        * ((a - b) / Qc_of_Z n))%Qc)
             (fun i => (- (m (sample a h (Z.of_nat (Z.to_nat n) - i)) * h))%Qc)).
  2:{ intros i _. rewrite sample_reversed by exact Hn.
      rewrite Z2Nat.id by lia. unfold h. field.
      apply Qc_of_Z_nonzero. lia. }
  rewrite sum_from_opp.
  rewrite (sum_from_reverse (fun j => (m (sample a h j) * h)%Qc)).
  ring.
Qed.

(** The two rules on [x^2] between [1] and [3] with four subintervals. *)
Lemma lr_is_opposite_of_reversed_rr_witness :
  exists r : Qc,
    Numan.rr (fun x => x * x)%Qc (Qc_of_Z 3) (Qc_of_Z 1) 4 = Ok r
    /\ Numan.lr (fun x => x * x)%Qc (Qc_of_Z 1) (Qc_of_Z 3) 4 = Ok (- r)%Qc.
Proof.
  exact (lr_is_opposite_of_reversed_rr (fun x => x * x)%Qc
           (Qc_of_Z 1) (Qc_of_Z 3) 4 eq_refl).
Defined.

(** * The traces of the root finders, at every number type *)

Section Traces.
Context {A : Type} `{Number A}.

Lemma picard_shift (m : A -> A) (x : A) (k : nat) :
  picard m (m x) k = picard m x (S k).
Proof.
  induction k as [| k IH]; [reflexivity |].
  cbn [picard] in *. now rewrite IH.
Qed.

Lemma newton_shift (m dm : A -> A) (x : A) (k : nat) :
  newton m dm (sub x (div (m x) (dm x))) k = newton m dm x (S k).
Proof.
  induction k as [| k IH]; [reflexivity |].
  cbn [newton] in *. cbv zeta in *. now rewrite IH.
Qed.

Lemma map_seq_shift {B : Type} (f g : nat -> B) (start len : nat) :
  (forall j, f j = g (S j)) ->
  map f (seq start len) = map g (seq (S start) len).
Proof.
  intros Hfg. rewrite <- seq_shift, map_map. apply map_ext. exact Hfg.
Qed.

(** ** fp, bounded mode *)

(** The rows the bounded loop of [fp] appends: every one of them carries
    the step index [count] the loop was entered with, and the magnitude
    [|m x_j|] in its residual column. *)
Lemma fp_for_trace (m : A -> A) (count : Z) (l : list Z) :
  forall (tab : list (list A)) (sol : A) (spec_tab : Numan.table),
    fold_left (Numan.fp_for_body m count) l (tab, sol, spec_tab)
    = (tab ++ map (fun j => [picard m sol j; m (picard m sol j)])
                  (seq 0 (length l)),
       picard m sol (length l),
       spec_tab ++ map (fun j => row count (picard m sol j)
                                     (magnitude m (picard m sol j)))
                       (seq 1 (length l))).
Proof.
  induction l as [| i l IH]; intros tab sol spec_tab.
  - cbn [fold_left length seq map picard]. now rewrite !app_nil_r.
  - cbn [fold_left length]. unfold Numan.fp_for_body at 2. rewrite IH.
    rewrite <- !app_assoc. cbn [app seq map]. rewrite picard_shift.
    rewrite (map_seq_shift
               (fun j => [picard m (m sol) j; m (picard m (m sol) j)])
               (fun j => [picard m sol j; m (picard m sol j)]) 0)
      by (intros j; now rewrite picard_shift).
    rewrite (map_seq_shift
               (fun j => row count (picard m (m sol) j)
                             (magnitude m (picard m (m sol) j)))
               (fun j => row count (picard m sol j)
                             (magnitude m (picard m sol j))) 1)
      by (intros j; now rewrite picard_shift).
    reflexivity.
Qed.

Lemma fp_bounded_trace (fuel : nat) (m : A -> A) (x0 : A) (n : Z) (lim : A) :
  n <> 0 ->
  Numan.fp fuel m x0 n lim
  = Some (Numan.header
            :: row 0 x0 (displacement m x0)
            :: map (fun j => row 0 (picard m x0 j) (magnitude m (picard m x0 j)))
                   (seq 1 (Z.to_nat n))).
Proof.
  intros Hn. unfold Numan.fp.
  destruct (Z.eqb_spec n 0) as [Hz | _]; [contradiction |].
  rewrite fp_for_trace, range_length.
  now replace (Z.to_nat (n - 0)) with (Z.to_nat n) by lia.
Qed.

(** ** fp, unbounded mode *)

(** [k] passes of the [while] loop of [fp], as long as the displacement is
    not below the tolerance. *)
Lemma fp_while_run (m : A -> A) (lim : A) (k : nat) :
  forall (fuel : nat) (tab : list (list A)) (sol : A) (count : Z)
         (spec_tab : Numan.table),
    (forall j, (j < k)%nat ->
               ge (displacement m (picard m sol j)) lim = true) ->
    Numan.fp_while (k + fuel) m lim tab sol count spec_tab
    = Numan.fp_while fuel m lim
        (tab ++ map (fun j => [picard m sol j; m (picard m sol j)]) (seq 0 k))
        (picard m sol k)
        (count + Z.of_nat k)
        (spec_tab ++ map (fun j => row (count + Z.of_nat j) (picard m sol j)
                                       (magnitude m (picard m sol j)))
                         (seq 1 k)).
Proof.
  induction k as [| k IH]; intros fuel tab sol count spec_tab Hge.
  - cbn [Nat.add seq map picard Z.of_nat].
    now rewrite !app_nil_r, Z.add_0_r.
  - cbn [Nat.add Numan.fp_while].
    pose proof (Hge 0%nat ltac:(lia)) as H0.
    cbn [picard] in H0. unfold displacement in H0. rewrite H0.
    rewrite IH.
    2:{ intros j Hj. rewrite picard_shift. apply Hge. lia. }
    rewrite <- !app_assoc. cbn [app seq map]. rewrite picard_shift.
    rewrite (map_seq_shift
               (fun j => [picard m (m sol) j; m (picard m (m sol) j)])
               (fun j => [picard m sol j; m (picard m sol j)]) 0)
      by (intros j; now rewrite picard_shift).
    rewrite (map_seq_shift
               (fun j => row (count + 1 + Z.of_nat j) (picard m (m sol) j)
                             (magnitude m (picard m (m sol) j)))
               (fun j => row (count + Z.of_nat j) (picard m sol j)
                             (magnitude m (picard m sol j))) 1)
      by (intros j; rewrite picard_shift; f_equal; lia).
    replace (count + 1 + Z.of_nat k) with (count + Z.of_nat (S k)) by lia.
    reflexivity.
Qed.

Lemma fp_unbounded_trace (fuel : nat) (m : A -> A) (x0 lim : A) (k : nat) :
  (forall j, (j < k)%nat -> ge (displacement m (picard m x0 j)) lim = true) ->
  ge (displacement m (picard m x0 k)) lim = false ->
  (k < fuel)%nat ->
  Numan.fp fuel m x0 0 lim
  = Some (Numan.header
            :: row 0 x0 (displacement m x0)
            :: map (fun j => row (Z.of_nat j) (picard m x0 j)
                                 (magnitude m (picard m x0 j)))
                   (seq 1 k)).
Proof.
  intros Hge Hstop Hfuel. unfold Numan.fp. cbn [Z.eqb].
  replace fuel with (k + S (fuel - S k))%nat by lia.
  rewrite fp_while_run by exact Hge.
  cbn [Numan.fp_while]. unfold displacement in Hstop. rewrite Hstop.
  reflexivity.
Qed.

(** ** nr *)

Lemma truediv_nonzero (x y : A) :
  is_zero y = false -> truediv x y = Ok (div x y).
Proof. intros Hy. unfold truediv. now rewrite Hy. Qed.

Lemma truediv_zero (x y : A) :
  is_zero y = true -> truediv x y = Raise ZeroDivisionError.
Proof. intros Hy. unfold truediv. now rewrite Hy. Qed.

Lemma nr_for_body_ok (m dm : A -> A) (tab : list (list A)) (sol : A)
    (spec_tab : Numan.table) (k : Z) :
  is_zero (dm sol) = false ->
  let sol' := sub sol (div (m sol) (dm sol)) in
  Numan.nr_for_body m dm (tab, sol, spec_tab) k
  = Ok (tab ++ [[sol; sol']], sol',
        spec_tab ++ [row k sol' (magnitude m sol')]).
Proof.
  intros Hnz sol'. unfold Numan.nr_for_body.
  rewrite truediv_nonzero by exact Hnz. reflexivity.
Qed.

Lemma nr_for_body_raise (m dm : A -> A) (tab : list (list A)) (sol : A)
    (spec_tab : Numan.table) (k : Z) :
  is_zero (dm sol) = true ->
  Numan.nr_for_body m dm (tab, sol, spec_tab) k = Raise ZeroDivisionError.
Proof.
  intros Hz. unfold Numan.nr_for_body.
  rewrite truediv_zero by exact Hz. reflexivity.
Qed.

(** [k] passes of the [for] loop of [nr] over the indices [lo + 1], ...,
    [lo + k], as long as the derivative is not zero. *)
Lemma nr_for_run (m dm : A -> A) (k : nat) :
  forall (lo : Z) (tab : list (list A)) (sol : A) (spec_tab : Numan.table),
    (forall j, (j < k)%nat -> is_zero (dm (newton m dm sol j)) = false) ->
    for_each (range (lo + 1) (lo + 1 + Z.of_nat k)) (tab, sol, spec_tab)
             (Numan.nr_for_body m dm)
    = Ok (tab ++ map (fun j => [newton m dm sol j; newton m dm sol (S j)])
                     (seq 0 k),
          newton m dm sol k,
          spec_tab ++ map (fun j => row (lo + Z.of_nat j) (newton m dm sol j)
                                        (magnitude m (newton m dm sol j)))
                          (seq 1 k)).
Proof.
  induction k as [| k IH]; intros lo tab sol spec_tab Hnz.
  - rewrite range_empty by lia. cbn [for_each seq map newton].
    now rewrite !app_nil_r.
  - rewrite range_cons by lia. cbn [for_each].
    pose proof (Hnz 0%nat ltac:(lia)) as H0. cbn [newton] in H0.
    rewrite nr_for_body_ok by exact H0. cbv zeta. cbn [bind].
    replace (lo + 1 + Z.of_nat (S k)) with (lo + 1 + 1 + Z.of_nat k) by lia.
    rewrite IH.
    2:{ intros j Hj. rewrite newton_shift. apply Hnz. lia. }
    rewrite <- !app_assoc. cbn [app seq map]. rewrite newton_shift.
    rewrite (map_seq_shift
               (fun j => [newton m dm (sub sol (div (m sol) (dm sol))) j;
                          newton m dm (sub sol (div (m sol) (dm sol))) (S j)])
               (fun j => [newton m dm sol j; newton m dm sol (S j)]) 0)
      by (intros j; now rewrite !newton_shift).
    rewrite (map_seq_shift
               (fun j => row (lo + 1 + Z.of_nat j)
                             (newton m dm (sub sol (div (m sol) (dm sol))) j)
                             (magnitude m
                                (newton m dm (sub sol (div (m sol) (dm sol))) j)))
               (fun j => row (lo + Z.of_nat j) (newton m dm sol j)
                             (magnitude m (newton m dm sol j))) 1)
      by (intros j; rewrite newton_shift; f_equal; lia).
    reflexivity.
Qed.

Lemma nr_bounded_trace (fuel : nat) (m dm : A -> A) (x0 : A) (n : Z) (lim : A) :
  0 < n ->
  (forall j, (j < Z.to_nat n)%nat -> is_zero (dm (newton m dm x0 j)) = false) ->
  Numan.nr fuel m dm x0 n lim = Some (Ok (nr_trace m dm x0 (Z.to_nat n))).
Proof.
  intros Hn Hnz. unfold Numan.nr.
  destruct (Z.eqb_spec n 0) as [Hz | _]; [lia |].
  replace (n + 1) with (0 + 1 + Z.of_nat (Z.to_nat n)) by lia.
  change (range 1) with (range (0 + 1)).
  rewrite nr_for_run by exact Hnz. reflexivity.
Qed.

Lemma nr_bounded_raise (fuel : nat) (m dm : A -> A) (x0 : A) (n : Z) (lim : A)
    (k : nat) :
  Z.of_nat k < n ->
  (forall j, (j < k)%nat -> is_zero (dm (newton m dm x0 j)) = false) ->
  is_zero (dm (newton m dm x0 k)) = true ->
  Numan.nr fuel m dm x0 n lim = Some (Raise ZeroDivisionError).
Proof.
  intros Hk Hnz Hz. unfold Numan.nr.
  destruct (Z.eqb_spec n 0) as [Hn | _]; [lia |].
  rewrite (range_app 1 (0 + 1 + Z.of_nat k) (n + 1)) by lia.
  rewrite for_each_app. change (range 1) with (range (0 + 1)).
  rewrite nr_for_run by exact Hnz. cbn [bind].
  rewrite range_cons by lia. cbn [for_each].
  rewrite nr_for_body_raise by exact Hz. reflexivity.
Qed.

(** [k] passes of the [while] loop of [nr], as long as the magnitude is not
    below the tolerance and the derivative is not zero. *)
Lemma nr_while_run (m dm : A -> A) (lim : A) (k : nat) :
  forall (fuel : nat) (tab : list (list A)) (sol : A) (count : Z)
         (spec_tab : Numan.table),
    (forall j, (j < k)%nat ->
               ge (magnitude m (newton m dm sol j)) lim = true) ->
    (forall j, (j < k)%nat -> is_zero (dm (newton m dm sol j)) = false) ->
    Numan.nr_while (k + fuel) m dm lim tab sol count spec_tab
    = Numan.nr_while fuel m dm lim
        (tab ++ map (fun j => [newton m dm sol j; newton m dm sol (S j)])
                    (seq 0 k))
        (newton m dm sol k)
        (count + Z.of_nat k)
        (spec_tab ++ map (fun j => row (count + Z.of_nat j) (newton m dm sol j)
                                       (magnitude m (newton m dm sol j)))
                         (seq 1 k)).
Proof.
  induction k as [| k IH]; intros fuel tab sol count spec_tab Hge Hnz.
  - cbn [Nat.add seq map newton Z.of_nat].
    now rewrite !app_nil_r, Z.add_0_r.
  - cbn [Nat.add Numan.nr_while].
    pose proof (Hge 0%nat ltac:(lia)) as Hge0.
    pose proof (Hnz 0%nat ltac:(lia)) as Hnz0.
    cbn [newton] in Hge0, Hnz0. unfold magnitude in Hge0. rewrite Hge0.
    rewrite truediv_nonzero by exact Hnz0.
    rewrite IH.
    2:{ intros j Hj. rewrite newton_shift. apply Hge. lia. }
    2:{ intros j Hj. rewrite newton_shift. apply Hnz. lia. }
    rewrite <- !app_assoc. cbn [app seq map]. rewrite newton_shift.
    rewrite (map_seq_shift
               (fun j => [newton m dm (sub sol (div (m sol) (dm sol))) j;
                          newton m dm (sub sol (div (m sol) (dm sol))) (S j)])
               (fun j => [newton m dm sol j; newton m dm sol (S j)]) 0)
      by (intros j; now rewrite !newton_shift).
    rewrite (map_seq_shift
               (fun j => row (count + 1 + Z.of_nat j)
                             (newton m dm (sub sol (div (m sol) (dm sol))) j)
                             (magnitude m
                                (newton m dm (sub sol (div (m sol) (dm sol))) j)))
               (fun j => row (count + Z.of_nat j) (newton m dm sol j)
                             (magnitude m (newton m dm sol j))) 1)
      by (intros j; rewrite newton_shift; f_equal; lia).
    replace (count + 1 + Z.of_nat k) with (count + Z.of_nat (S k)) by lia.
    reflexivity.
Qed.

Lemma nr_unbounded_trace (fuel : nat) (m dm : A -> A) (x0 lim : A) (k : nat) :
  (forall j, (j < k)%nat -> ge (magnitude m (newton m dm x0 j)) lim = true) ->
  (forall j, (j < k)%nat -> is_zero (dm (newton m dm x0 j)) = false) ->
  ge (magnitude m (newton m dm x0 k)) lim = false ->
  (k < fuel)%nat ->
  Numan.nr fuel m dm x0 0 lim = Some (Ok (nr_trace m dm x0 k)).
Proof.
  intros Hge Hnz Hstop Hfuel. unfold Numan.nr. cbn [Z.eqb].
  replace fuel with (k + S (fuel - S k))%nat by lia.
  rewrite nr_while_run by assumption.
  cbn [Numan.nr_while]. unfold magnitude in Hstop. rewrite Hstop.
  reflexivity.
Qed.

Lemma nr_unbounded_raise (fuel : nat) (m dm : A -> A) (x0 lim : A) (k : nat) :
  (forall j, (j <= k)%nat -> ge (magnitude m (newton m dm x0 j)) lim = true) ->
  (forall j, (j < k)%nat -> is_zero (dm (newton m dm x0 j)) = false) ->
  is_zero (dm (newton m dm x0 k)) = true ->
  (k < fuel)%nat ->
  Numan.nr fuel m dm x0 0 lim = Some (Raise ZeroDivisionError).
Proof.
  intros Hge Hnz Hz Hfuel. unfold Numan.nr. cbn [Z.eqb].
  replace fuel with (k + S (fuel - S k))%nat by lia.
  rewrite nr_while_run by (try assumption; intros j Hj; apply Hge; lia).
  cbn [Numan.nr_while].
  pose proof (Hge k ltac:(lia)) as Hk. unfold magnitude in Hk. rewrite Hk.
  rewrite truediv_zero by exact Hz. reflexivity.
Qed.

End Traces.

(** * Newton-Raphson: the update and the zero derivative *)

(** C4.  [nr] applies [x_{k+1} = x_k - m(x_k) / dm(x_k)]: as long as the
    derivative is not zero at the iterates before step [k], the bounded
    mode with [n = k] steps and the unbounded mode that stops at step [k]
    return the header and the rows [(j, x_j, |m(x_j)|)] of the Newton
    iterates [x_0], ..., [x_k].  When the derivative is zero at the iterate
    [x_k], reached before the loop stops, the call ends in
    [ZeroDivisionError], in the bounded mode (any [n > k]) and in the
    unbounded mode (the magnitude not below the tolerance up to step [k])
    alike. *)
Theorem nr_update_and_zero_derivative {A : Type} `{Number A}
    (m dm : A -> A) (x0 lim : A) (k : nat) :
  (forall j, (j < k)%nat -> is_zero (dm (newton m dm x0 j)) = false) ->
  (forall fuel, (0 < k)%nat ->
     Numan.nr fuel m dm x0 (Z.of_nat k) lim = Some (Ok (nr_trace m dm x0 k)))
  /\ (forall fuel,
        (forall j, (j < k)%nat ->
                   ge (magnitude m (newton m dm x0 j)) lim = true) ->
        ge (magnitude m (newton m dm x0 k)) lim = false ->
        (k < fuel)%nat ->
        Numan.nr fuel m dm x0 0 lim = Some (Ok (nr_trace m dm x0 k)))
  /\ (is_zero (dm (newton m dm x0 k)) = true ->
      (forall fuel n, Z.of_nat k < n ->
         Numan.nr fuel m dm x0 n lim = Some (Raise ZeroDivisionError))
      /\ (forall fuel,
            (forall j, (j <= k)%nat ->
                       ge (magnitude m (newton m dm x0 j)) lim = true) ->
            (k < fuel)%nat ->
            Numan.nr fuel m dm x0 0 lim = Some (Raise ZeroDivisionError))).
Proof.
  intros Hnz. split; [| split].
  - intros fuel Hk.
    rewrite <- (Nat2Z.id k) at 2.
    apply nr_bounded_trace; [lia |]. now rewrite Nat2Z.id.
  - intros fuel Hge Hstop Hfuel. now apply nr_unbounded_trace.
  - intros Hz. split.
    + intros fuel n Hn. now apply (nr_bounded_raise fuel m dm x0 n lim k).
    + intros fuel Hge Hfuel. now apply (nr_unbounded_raise fuel m dm x0 lim k).
Qed.

(** [x^2 - 2] with derivative [2x] in binary64: two bounded steps from
    [1]; the unbounded run from [1] with tolerance [0.5], which stops at
    step [1]; and both modes from [0], where the derivative is zero. *)
Lemma nr_update_and_zero_derivative_witness :
  Numan.nr 0 sq2 dsq2 1%float 2 0.5%float
  = Some (Ok [Numan.header;
              row 0 1%float 1%float;
              row 1 1.5%float 0.25%float;
              row 2 1.4166666666666667%float 0.0069444444444446418%float])
  /\ Numan.nr 3 sq2 dsq2 1%float 0 0.5%float
     = Some (Ok [Numan.header;
                 row 0 1%float 1%float;
                 row 1 1.5%float 0.25%float])
  /\ Numan.nr 0 sq2 dsq2 0%float 5 0.5%float = Some (Raise ZeroDivisionError)
  /\ Numan.nr 1 sq2 dsq2 0%float 0 0.5%float = Some (Raise ZeroDivisionError).
Proof.
  assert (Hnone : forall j, (j < 0)%nat ->
            is_zero (dsq2 (newton sq2 dsq2 0%float j)) = false) by lia.
  assert (Htwo : forall j, (j < 2)%nat ->
            is_zero (dsq2 (newton sq2 dsq2 1%float j)) = false).
  { intros [| [| j]] Hj; [reflexivity | reflexivity | lia]. }
  assert (Hone : forall j, (j < 1)%nat ->
            is_zero (dsq2 (newton sq2 dsq2 1%float j)) = false).
  { intros j Hj. apply Htwo. lia. }
  destruct (nr_update_and_zero_derivative sq2 dsq2 1%float 0.5%float 2 Htwo)
    as (Hbounded & _ & _).
  destruct (nr_update_and_zero_derivative sq2 dsq2 1%float 0.5%float 1 Hone)
    as (_ & Hunbounded & _).
  destruct (nr_update_and_zero_derivative sq2 dsq2 0%float 0.5%float 0 Hnone)
    as (_ & _ & Hraise).
  destruct (Hraise eq_refl) as (Hraise_for & Hraise_while).
  split; [| split; [| split]].
  - etransitivity; [exact (Hbounded 0%nat ltac:(lia)) |].
    vm_compute. reflexivity.
  - rewrite (Hunbounded 3%nat).
    + vm_compute. reflexivity.
    + intros [| j] Hj; [reflexivity | lia].
    + reflexivity.
    + lia.
  - apply Hraise_for. reflexivity.
  - apply Hraise_while; [| lia].
    intros [| j] Hj; [reflexivity | lia].
Defined.

(** * Square roots of two *)

(** A rational whose square brackets [2] within [eps] is within [eps] of
    the square root of [2]. *)
Lemma near_sqrt2 (q eps : Q) :
  (0 < eps)%Q ->
  (0 < q - eps)%Q ->
  ((q - eps) * (q - eps) < 2)%Q ->
  (2 < (q + eps) * (q + eps))%Q ->
  (Rabs (Q2R q - R_sqrt.sqrt 2) < Q2R eps)%R.
Proof.
  intros Heps Hpos Hlo Hhi.
  apply Qlt_Rlt in Heps, Hpos, Hlo, Hhi.
  rewrite Q2R_minus in Hpos.
  rewrite Q2R_mult, Q2R_minus in Hlo.
  rewrite Q2R_mult, Q2R_plus in Hhi.
  replace (Q2R 0) with 0%R in Heps, Hpos by (unfold Q2R; cbn; lra).
  replace (Q2R 2) with 2%R in Hlo, Hhi by (unfold Q2R; cbn; lra).
  assert (Hs : (0 <= R_sqrt.sqrt 2)%R) by apply sqrt_pos.
  assert (Hsq : (R_sqrt.sqrt 2 * R_sqrt.sqrt 2 = 2)%R)
    by (apply sqrt_sqrt; lra).
  generalize dependent (R_sqrt.sqrt 2).
  generalize dependent (Q2R q). generalize dependent (Q2R eps).
  intros e He r Hpos Hlo Hhi s Hs Hsq.
  apply Rabs_def1.
  - destruct (Rlt_le_dec (r - e) s) as [Hlt | Hle]; [lra |].
    assert (s * s <= (r - e) * (r - e))%R by (apply Rmult_le_compat; lra).
    lra.
  - destruct (Rlt_le_dec s (r + e)) as [Hlt | Hle]; [lra |].
    assert ((r + e) * (r + e) <= s * s)%R by (apply Rmult_le_compat; lra).
    lra.
Qed.

(** * The examples of the specification *)

(** C7, as the code has it.  [nr] run on [x^2 - 2] with derivative [2x]
    from [x0 = 1] for [n = 5] steps returns seven rows: the header, the
    row of step [0] and five iteration rows; the approximation of the last
    row is within [1e-4] of the square root of [2].  This holds in binary64
    and in exact arithmetic, whatever the fuel and the tolerance. *)
Theorem nr_sqrt2_seven_rows (fuel : nat) (lim : float) (lim' : Qc) :
  (exists (tr : Numan.table) (x : float) (q : Q),
      Numan.nr fuel sq2 dsq2 1%float 5 lim = Some (Ok tr)
      /\ tr = nr_trace sq2 dsq2 1%float 5
      /\ length tr = 7%nat
      /\ row_approx (last tr []) = Some x
      /\ Q_of_float x = Some q
      /\ (Rabs (Q2R q - R_sqrt.sqrt 2) < 1 / 10000)%R)
  /\ (exists (tr : Numan.table) (x : Qc),
         Numan.nr fuel sq2 dsq2 (Qc_of_Z 1) 5 lim' = Some (Ok tr)
         /\ tr = nr_trace sq2 dsq2 (Qc_of_Z 1) 5
         /\ length tr = 7%nat
         /\ row_approx (last tr []) = Some x
         /\ (Rabs (Q2R x - R_sqrt.sqrt 2) < 1 / 10000)%R).
Proof.
  assert (Heps : (1 / 10000)%R = Q2R (1 # 10000)) by (unfold Q2R; cbn; lra).
  split.
  - exists (nr_trace sq2 dsq2 1%float 5). eexists. eexists.
    split; [vm_compute; reflexivity |].
    split; [reflexivity |].
    split; [reflexivity |].
    split; [vm_compute; reflexivity |].
    split; [vm_compute; reflexivity |].
    rewrite Heps. apply near_sqrt2; vm_compute; reflexivity.
  - exists (nr_trace sq2 dsq2 (Qc_of_Z 1) 5). eexists.
    split; [vm_compute; reflexivity |].
    split; [reflexivity |].
    split; [reflexivity |].
    split; [vm_compute; reflexivity |].
    rewrite Heps. apply near_sqrt2; vm_compute; reflexivity.
Qed.

(** C7 as stated fails on the number of rows: the trace holds the row of
    step [0] besides the header and the five iteration rows, seven rows and
    not six. *)
Lemma nr_sqrt2_six_rows_counterexample :
  exists tr : Numan.table,
    Numan.nr 0 sq2 dsq2 1%float 5 0.001%float = Some (Ok tr)
    /\ length tr = 7%nat
    /\ length tr <> 6%nat.
Proof.
  eexists. split; [vm_compute; reflexivity |].
  split; [reflexivity | discriminate].
Qed.

(** C1 at [m(x) = x/2 + 1], [x0 = 0], tolerance [0.5].  The unbounded loop
    appends the rows of [x_1 = 1] and [x_2 = 1.5] with the residuals
    [|m(x_1)| = 1.5] and [|m(x_2)| = 1.75], where the displacements
    [|m(x_k) - x_k|] are [0.5] and [0.25]; the bounded loop with [n = 2]
    stores the same residuals.  Only the row of step [0] holds a
    displacement. *)
Theorem fp_loop_rows_store_magnitude (fuel : nat) (lim : float) :
  Numan.fp (3 + fuel) halve_add_one 0%float 0 0.5%float
  = Some [Numan.header;
          row 0 0%float 1%float;
          row 1 1%float 1.5%float;
          row 2 1.5%float 1.75%float]
  /\ Numan.fp fuel halve_add_one 0%float 2 lim
     = Some [Numan.header;
             row 0 0%float 1%float;
             row 0 1%float 1.5%float;
             row 0 1.5%float 1.75%float]
  /\ displacement halve_add_one 0%float = 1%float
  /\ displacement halve_add_one 1%float = 0.5%float
  /\ displacement halve_add_one 1.5%float = 0.25%float
  /\ magnitude halve_add_one 1%float = 1.5%float
  /\ magnitude halve_add_one 1.5%float = 1.75%float.
Proof. repeat split; vm_compute; reflexivity. Qed.

(** C8 at [m(x) = x/2 + 1], [x0 = 0], [n = 2].  The trace has the header,
    the row of step [0] and two iteration rows, and both iteration rows
    carry the step index [0]: the bounded loop never advances [count].  The
    exact run agrees with the binary64 run. *)
Theorem fp_bounded_step_index_stays_zero (fuel : nat) (lim : float) (lim' : Qc) :
  Numan.fp fuel halve_add_one 0%float 2 lim
  = Some [Numan.header;
          [VInt 0; VNum 0%float; VNum 1%float];
          [VInt 0; VNum 1%float; VNum 1.5%float];
          [VInt 0; VNum 1.5%float; VNum 1.75%float]]
  /\ option_map table_this (Numan.fp fuel halve_add_one (Qc_of_Z 0) 2 lim')
     = Some [[VStr "n"%string; VStr "xn"%string; VStr "|f(xn)|"%string];
             [VInt 0; VNum 0%Q; VNum 1%Q];
             [VInt 0; VNum 1%Q; VNum (3 # 2)%Q];
             [VInt 0; VNum (3 # 2)%Q; VNum (7 # 4)%Q]]
  /\ option_map (map row_step) (Numan.fp fuel halve_add_one 0%float 2 lim)
     = Some [None; Some 0; Some 0; Some 0].
Proof. repeat split; vm_compute; reflexivity. Qed.

(** C9.  [fp] run on [(x + 2/x)/2] from [x0 = 1] with tolerance [0.0001]
    and no iteration count stops after three passes, its approximations
    [1.5], [1.41666...], [1.414215...] approaching the square root of [2].
    The residual stored in the last row is [|m(x_3)| = 1.41421356...], not
    below the tolerance; the displacement [|m(x_3) - x_3|], which stopped
    the loop, is about [2.1e-6].  The exact run agrees with the binary64
    run. *)
Theorem fp_heron_last_residual (fuel : nat) :
  Numan.fp (4 + fuel) heron 1%float 0 0.0001%float
  = Some [Numan.header;
          row 0 1%float 0.5%float;
          row 1 1.5%float 1.4166666666666665%float;
          row 2 1.4166666666666665%float 1.4142156862745097%float;
          row 3 1.4142156862745097%float 1.4142135623746899%float]
  /\ option_map (fun tr => row_residual (last tr []))
       (Numan.fp (4 + fuel) heron 1%float 0 0.0001%float)
     = Some (Some 1.4142135623746899%float)
  /\ ge 1.4142135623746899%float 0.0001%float = true
  /\ displacement heron 1.4142156862745097%float
     = 2.1238998197947723e-06%float
  /\ option_map table_this
       (Numan.fp (4 + fuel) heron (Qc_of_Z 1) 0 (Q2Qc (1 # 10000)))
     = Some [[VStr "n"%string; VStr "xn"%string; VStr "|f(xn)|"%string];
             [VInt 0; VNum 1%Q; VNum (1 # 2)%Q];
             [VInt 1; VNum (3 # 2)%Q; VNum (17 # 12)%Q];
             [VInt 2; VNum (17 # 12)%Q; VNum (577 # 408)%Q];
             [VInt 3; VNum (577 # 408)%Q; VNum (665857 # 470832)%Q]]
  /\ (1 # 10000 <= 665857 # 470832)%Q.
Proof.
  repeat split; try (vm_compute; reflexivity).
  vm_compute. discriminate.
Qed.

(** * Further properties of the routines *)

(** * Subinterval and step counts that are not positive *)

Section Degenerate.
Context {A : Type} `{Number A}.









Lemma e_returns_value (m : A -> A) (a b x0 : A) (n : Z) :
  0 < n ->
  Numan.e m a b x0 n
  = Ok (euler m (div (sub b a) (of_int n)) x0 (Z.to_nat n)).
Proof.
  intros Hn. unfold Numan.e. rewrite truediv_int_pos by exact Hn.
  cbn [bind]. f_equal.
  rewrite (fold_iterate (fun y => add y (mul (div (sub b a) (of_int n)) (m y)))).
  rewrite range_length, euler_iter. do 2 f_equal. lia.
Qed.

End Degenerate.







(** * The root finders: what a returned trace tells *)

Section Returned.
Context {A : Type} `{Number A}.

(** The [while] loop of [fp] returns only by leaving at the first iterate
    whose displacement is below the tolerance. *)
Lemma fp_while_returns (m : A -> A) (lim : A) (fuel : nat) :
  forall (tab : list (list A)) (sol : A) (count : Z)
         (spec_tab tr : Numan.table),
    Numan.fp_while fuel m lim tab sol count spec_tab = Some tr ->
    exists k : nat,
      (k < fuel)%nat
      /\ (forall j, (j < k)%nat ->
                    ge (displacement m (picard m sol j)) lim = true)
      /\ ge (displacement m (picard m sol k)) lim = false
      /\ tr = spec_tab
              ++ map (fun j => row (count + Z.of_nat j) (picard m sol j)
                                   (magnitude m (picard m sol j)))
                     (seq 1 k).
Proof.
  induction fuel as [| fuel IH]; intros tab sol count spec_tab tr Hrun.
  - discriminate Hrun.
  - cbn [Numan.fp_while] in Hrun.
    destruct (ge (absv (sub (m sol) sol)) lim) eqn:Hge.
    + apply IH in Hrun. destruct Hrun as (k & Hk & Hbefore & Hstop & ->).
      exists (S k). split; [lia |]. split; [| split].
      * intros [| j] Hj; [exact Hge |].
        rewrite <- picard_shift. apply Hbefore. lia.
      * now rewrite <- picard_shift.
      * rewrite <- app_assoc. cbn [app seq map]. f_equal. f_equal.
        apply map_seq_shift. intros j. rewrite picard_shift.
        f_equal. lia.
    + injection Hrun as <-. exists 0%nat.
      split; [lia |]. split; [lia |]. split; [exact Hge |].
      cbn [seq map]. now rewrite app_nil_r.
Qed.

(** The [while] loop of [fp] does not return while the displacement stays
    at or above the tolerance. *)
Lemma fp_while_starves (m : A -> A) (lim : A) (fuel : nat) :
  forall (tab : list (list A)) (sol : A) (count : Z) (spec_tab : Numan.table),
    (forall j, (j < fuel)%nat ->
               ge (displacement m (picard m sol j)) lim = true) ->
    Numan.fp_while fuel m lim tab sol count spec_tab = None.
Proof.
  intros tab sol count spec_tab Hge.
  rewrite <- (Nat.add_0_r fuel). rewrite fp_while_run by exact Hge.
  reflexivity.
Qed.

(** The first index below [n] at which a test holds, if there is one. *)
Lemma first_true (p : nat -> bool) (n : nat) :
  (forall j, (j < n)%nat -> p j = false)
  \/ (exists k, (k < n)%nat /\ p k = true
                /\ forall j, (j < k)%nat -> p j = false).
Proof.
  induction n as [| n IH]; [left; lia |].
  destruct IH as [Hnone | Hsome].
  - destruct (p n) eqn:Hn.
    + right. exists n. split; [lia |]. split; [exact Hn | exact Hnone].
    + left. intros j Hj. destruct (Nat.eq_dec j n) as [-> | Hne];
        [exact Hn | apply Hnone; lia].
  - right. destruct Hsome as (k & Hk & Hpk & Hbefore).
    exists k. split; [lia |]. split; assumption.
Qed.

(** The [while] loop of [nr] returns a table only by leaving at the first
    iterate whose magnitude is below the tolerance, the derivative not zero
    at any iterate before it. *)
Lemma nr_while_returns (m dm : A -> A) (lim : A) (fuel : nat) :
  forall (tab : list (list A)) (sol : A) (count : Z)
         (spec_tab tr : Numan.table),
    Numan.nr_while fuel m dm lim tab sol count spec_tab = Some (Ok tr) ->
    exists k : nat,
      (k < fuel)%nat
      /\ (forall j, (j < k)%nat ->
                    ge (magnitude m (newton m dm sol j)) lim = true
                    /\ is_zero (dm (newton m dm sol j)) = false)
      /\ ge (magnitude m (newton m dm sol k)) lim = false
      /\ tr = spec_tab
              ++ map (fun j => row (count + Z.of_nat j) (newton m dm sol j)
                                   (magnitude m (newton m dm sol j)))
                     (seq 1 k).
Proof.
  induction fuel as [| fuel IH]; intros tab sol count spec_tab tr Hrun.
  - discriminate Hrun.
  - cbn [Numan.nr_while] in Hrun.
    destruct (ge (absv (m sol)) lim) eqn:Hge.
    + unfold truediv in Hrun.
      destruct (is_zero (dm sol)) eqn:Hz; [discriminate Hrun |].
      apply IH in Hrun. destruct Hrun as (k & Hk & Hbefore & Hstop & ->).
      exists (S k). split; [lia |]. split; [| split].
      * intros [| j] Hj; [split; assumption |].
        rewrite <- newton_shift. apply Hbefore. lia.
      * now rewrite <- newton_shift.
      * rewrite <- app_assoc. cbn [app seq map]. f_equal. f_equal.
        apply map_seq_shift. intros j. rewrite newton_shift.
        f_equal. lia.
    + injection Hrun as <-. exists 0%nat.
      split; [lia |]. split; [lia |]. split; [exact Hge |].
      cbn [seq map]. now rewrite app_nil_r.
Qed.

(** The [while] loop of [nr] raises nothing but [ZeroDivisionError]. *)
Lemma nr_while_raises (m dm : A -> A) (lim : A) (fuel : nat) :
  forall (tab : list (list A)) (sol : A) (count : Z)
         (spec_tab : Numan.table) (err : exn),
    Numan.nr_while fuel m dm lim tab sol count spec_tab = Some (Raise err) ->
    err = ZeroDivisionError.
Proof.
  induction fuel as [| fuel IH]; intros tab sol count spec_tab err Hrun.
  - discriminate Hrun.
  - cbn [Numan.nr_while] in Hrun.
    destruct (ge (absv (m sol)) lim); [| discriminate Hrun].
    unfold truediv in Hrun. destruct (is_zero (dm sol)).
    + now injection Hrun as <-.
    + now apply IH in Hrun.
Qed.

(** The [while] loop of [nr] returns no table while the magnitude stays at
    or above the tolerance. *)
Lemma nr_while_no_table (m dm : A -> A) (lim : A) (fuel : nat) :
  (forall x, ge (magnitude m x) lim = true) ->
  forall (tab : list (list A)) (sol : A) (count : Z) (spec_tab : Numan.table),
    Numan.nr_while fuel m dm lim tab sol count spec_tab = None
    \/ Numan.nr_while fuel m dm lim tab sol count spec_tab
       = Some (Raise ZeroDivisionError).
Proof.
  intros Hge. induction fuel as [| fuel IH]; intros tab sol count spec_tab.
  - left. reflexivity.
  - cbn [Numan.nr_while]. pose proof (Hge sol) as Hsol.
    unfold magnitude in Hsol. rewrite Hsol. unfold truediv.
    destruct (is_zero (dm sol)); [right; reflexivity | apply IH].
Qed.

End Returned.

Section ReturnedMore.
Context {A : Type} `{Number A}.

Lemma nr_while_starves (m dm : A -> A) (lim : A) (fuel : nat) :
  forall (tab : list (list A)) (sol : A) (count : Z) (spec_tab : Numan.table),
    (forall j, (j < fuel)%nat ->
               ge (magnitude m (newton m dm sol j)) lim = true) ->
    (forall j, (j < fuel)%nat -> is_zero (dm (newton m dm sol j)) = false) ->
    Numan.nr_while fuel m dm lim tab sol count spec_tab = None.
Proof.
  intros tab sol count spec_tab Hge Hnz.
  rewrite <- (Nat.add_0_r fuel). rewrite nr_while_run by assumption.
  reflexivity.
Qed.

Lemma last_of_rows (f : nat -> list (value A)) (k : nat) :
  last (Numan.header :: map f (seq 0 (S k))) [] = f k.
Proof.
  rewrite seq_S, map_app. cbn [map Nat.add].
  change (Numan.header :: map f (seq 0 k) ++ [f k])
    with ((Numan.header :: map f (seq 0 k)) ++ [f k]).
  apply last_last.
Qed.

End ReturnedMore.

(** X3.  With a negative iteration count both root finders take the
    bounded branch and loop over an empty range: the trace is the header
    and the row of step [0], and [nr] does not divide, so a zero derivative
    at [x0] raises nothing. *)
Theorem negative_count_keeps_initial_row {A : Type} `{Number A}
    (fuel : nat) (m dm : A -> A) (x0 lim : A) (n : Z) :
  n < 0 ->
  Numan.fp fuel m x0 n lim
  = Some [Numan.header; row 0 x0 (displacement m x0)]
  /\ Numan.nr fuel m dm x0 n lim
     = Some (Ok [Numan.header; row 0 x0 (magnitude m x0)]).
Proof.
  intros Hn. split.
  - rewrite fp_bounded_trace by lia.
    now replace (Z.to_nat n) with 0%nat by lia.
  - unfold Numan.nr.
    destruct (Z.eqb_spec n 0) as [Hz | _]; [lia |].
    now rewrite range_empty by lia.
Qed.

Lemma negative_count_keeps_initial_row_witness :
  Numan.fp 0 sq2 0%float (-3) 0.001%float
  = Some [Numan.header; row 0 0%float 2%float]
  /\ Numan.nr 0 sq2 dsq2 0%float (-3) 0.001%float
     = Some (Ok [Numan.header; row 0 0%float 2%float]).
Proof.
  exact (negative_count_keeps_initial_row 0 sq2 dsq2 0%float 0.001%float (-3)
           eq_refl).
Defined.

(** X4.  In the bounded mode [fp] returns whatever the tolerance and however
    far from convergence: the trace has [n + 2] rows and its approximation
    column holds the iterates [x0], [m x0], ..., [m^n x0]. *)
Theorem fp_bounded_returns_iterates {A : Type} `{Number A}
    (fuel : nat) (m : A -> A) (x0 lim : A) (n : Z) :
  0 < n ->
  exists tr : Numan.table,
    Numan.fp fuel m x0 n lim = Some tr
    /\ length tr = (Z.to_nat n + 2)%nat
    /\ map row_approx tr
       = None :: map (fun j => Some (picard m x0 j)) (seq 0 (S (Z.to_nat n))).
Proof.
  intros Hn. eexists. split; [apply fp_bounded_trace; lia |]. split.
  - cbn [length]. rewrite length_map, length_seq. lia.
  - cbn [map seq]. now rewrite !map_map.
Qed.

Lemma fp_bounded_returns_iterates_witness :
  exists tr : Numan.table,
    Numan.fp 0 heron 1%float 3 0.001%float = Some tr
    /\ length tr = 5%nat
    /\ map row_approx tr
       = [None; Some 1%float; Some 1.5%float; Some 1.4166666666666665%float;
          Some 1.4142156862745097%float].
Proof.
  destruct (fp_bounded_returns_iterates 0 heron 1%float 0.001%float 3 eq_refl)
    as (tr & Hrun & Hlen & Hcol).
  exists tr. split; [exact Hrun |]. split; [exact Hlen |].
  rewrite Hcol. vm_compute. reflexivity.
Defined.

(** X5.  When the unbounded mode of [fp] returns, it has stopped at the
    first iterate [x_k] whose displacement [|m x_k - x_k|] is below the
    tolerance: the trace has [k + 2] rows, numbered [0], ..., [k] under the
    header, with the iterates [x_0], ..., [x_k] as approximations. *)
Theorem fp_unbounded_stops_at_first_small_displacement {A : Type} `{Number A}
    (fuel : nat) (m : A -> A) (x0 lim : A) (tr : Numan.table) :
  Numan.fp fuel m x0 0 lim = Some tr ->
  exists k : nat,
    (k < fuel)%nat
    /\ (forall j, (j < k)%nat ->
                  ge (displacement m (picard m x0 j)) lim = true)
    /\ ge (displacement m (picard m x0 k)) lim = false
    /\ length tr = (k + 2)%nat
    /\ map row_step tr = None :: map (fun j => Some (Z.of_nat j)) (seq 0 (S k))
    /\ map row_approx tr
       = None :: map (fun j => Some (picard m x0 j)) (seq 0 (S k)).
Proof.
  intros Hrun. unfold Numan.fp in Hrun. cbn [Z.eqb] in Hrun.
  apply fp_while_returns in Hrun.
  destruct Hrun as (k & Hk & Hbefore & Hstop & ->).
  exists k. split; [exact Hk |]. split; [exact Hbefore |].
  split; [exact Hstop |]. split; [| split].
  - cbn [app length]. rewrite length_map, length_seq. lia.
  - cbn [app map seq]. now rewrite !map_map.
  - cbn [app map seq]. now rewrite !map_map.
Qed.

(** The run on [(x + 2/x)/2] from [1] with tolerance [0.0001] in binary64
    returns five rows: it stopped at [x_3]. *)
Lemma fp_unbounded_stops_at_first_small_displacement_witness :
  exists tr : Numan.table,
    Numan.fp 5 heron 1%float 0 0.0001%float = Some tr
    /\ length tr = 5%nat
    /\ ge (displacement heron (picard heron 1%float 3)) 0.0001%float = false.
Proof.
  destruct (Numan.fp 5 heron 1%float 0 0.0001%float) as [tr |] eqn:Hrun;
    [| vm_compute in Hrun; discriminate Hrun].
  exists tr. split; [reflexivity |].
  destruct (fp_unbounded_stops_at_first_small_displacement
              5 heron 1%float 0.0001%float tr Hrun)
    as (k & _ & _ & Hstop & Hlen & _).
  assert (Hfive : length tr = 5%nat).
  { vm_compute in Hrun. injection Hrun as <-. reflexivity. }
  split; [exact Hfive |].
  assert (Hk : k = 3%nat) by lia. now rewrite <- Hk.
Defined.

(** X6.  The unbounded modes have no step limit.  While the displacement
    of the iterates of [fp] stays at or above the tolerance the loop of
    [fp] goes on; while the magnitude at the Newton iterates stays at or
    above the tolerance and the derivative is not zero there, the loop of
    [nr] goes on: whatever the fuel, neither call returns. *)
Theorem unbounded_modes_have_no_step_limit {A : Type} `{Number A}
    (m dm : A -> A) (x0 lim : A) :
  ((forall j, ge (displacement m (picard m x0 j)) lim = true) ->
   forall fuel, Numan.fp fuel m x0 0 lim = None)
  /\ ((forall j, ge (magnitude m (newton m dm x0 j)) lim = true) ->
      (forall j, is_zero (dm (newton m dm x0 j)) = false) ->
      forall fuel, Numan.nr fuel m dm x0 0 lim = None).
Proof.
  split.
  - intros Hge fuel. unfold Numan.fp. cbn [Z.eqb].
    apply fp_while_starves. intros j _. apply Hge.
  - intros Hge Hnz fuel. unfold Numan.nr. cbn [Z.eqb].
    apply nr_while_starves; intros j _; [apply Hge | apply Hnz].
Qed.

(** X8.  In the bounded mode [nr] always ends, whatever the fuel and the
    tolerance: either the derivative is not zero at the iterates [x_0], ...,
    [x_{n-1}] and the call returns the [n + 2] rows of the Newton iterates,
    or it is zero at a first iterate [x_k] with [k < n] and the call ends in
    [ZeroDivisionError]. *)
Theorem nr_bounded_trace_or_zero_division {A : Type} `{Number A}
    (fuel : nat) (m dm : A -> A) (x0 lim : A) (n : Z) :
  0 < n ->
  ((forall j, (j < Z.to_nat n)%nat -> is_zero (dm (newton m dm x0 j)) = false)
   /\ Numan.nr fuel m dm x0 n lim = Some (Ok (nr_trace m dm x0 (Z.to_nat n)))
   /\ length (nr_trace m dm x0 (Z.to_nat n)) = (Z.to_nat n + 2)%nat)
  \/ (exists k : nat,
        (k < Z.to_nat n)%nat
        /\ is_zero (dm (newton m dm x0 k)) = true
        /\ (forall j, (j < k)%nat -> is_zero (dm (newton m dm x0 j)) = false)
        /\ Numan.nr fuel m dm x0 n lim = Some (Raise ZeroDivisionError)).
Proof.
  intros Hn.
  destruct (first_true (fun j => is_zero (dm (newton m dm x0 j))) (Z.to_nat n))
    as [Hnone | (k & Hk & Hzero & Hbefore)].
  - left. split; [exact Hnone |]. split.
    + now apply nr_bounded_trace.
    + unfold nr_trace. cbn [length]. rewrite length_map, length_seq. lia.
  - right. exists k. split; [exact Hk |]. split; [exact Hzero |].
    split; [exact Hbefore |].
    apply (nr_bounded_raise fuel m dm x0 n lim k); [lia | assumption..].
Qed.

(** X9.  When the unbounded mode of [nr] returns a table, it has stopped at
    the first Newton iterate [x_k] whose magnitude [|m x_k|] is below the
    tolerance, the derivative not zero before it: the table is the header
    and the rows of [x_0], ..., [x_k], and the residual of its last row is
    below the tolerance.  When it raises, it raises [ZeroDivisionError]. *)
Theorem nr_unbounded_stops_below_tolerance {A : Type} `{Number A}
    (fuel : nat) (m dm : A -> A) (x0 lim : A) :
  (forall tr : Numan.table,
     Numan.nr fuel m dm x0 0 lim = Some (Ok tr) ->
     exists k : nat,
       (k < fuel)%nat
       /\ (forall j, (j < k)%nat ->
                     ge (magnitude m (newton m dm x0 j)) lim = true
                     /\ is_zero (dm (newton m dm x0 j)) = false)
       /\ tr = nr_trace m dm x0 k
       /\ row_residual (last tr []) = Some (magnitude m (newton m dm x0 k))
       /\ ge (magnitude m (newton m dm x0 k)) lim = false)
  /\ (forall err : exn,
        Numan.nr fuel m dm x0 0 lim = Some (Raise err) ->
        err = ZeroDivisionError).
Proof.
  split.
  - intros tr Hrun. unfold Numan.nr in Hrun. cbn [Z.eqb] in Hrun.
    apply nr_while_returns in Hrun.
    destruct Hrun as (k & Hk & Hbefore & Hstop & ->).
    exists k. split; [exact Hk |]. split; [exact Hbefore |].
    assert (Htr : [Numan.header; [VInt 0; VNum x0; VNum (absv (m x0))]]
                  ++ map (fun j => row (0 + Z.of_nat j) (newton m dm x0 j)
                                       (magnitude m (newton m dm x0 j)))
                         (seq 1 k)
                  = nr_trace m dm x0 k).
    { unfold nr_trace. cbn [app seq map]. reflexivity. }
    rewrite Htr. split; [reflexivity |]. split; [| exact Hstop].
    unfold nr_trace. now rewrite last_of_rows.
  - intros err Hrun. unfold Numan.nr in Hrun. cbn [Z.eqb] in Hrun.
    now apply nr_while_raises in Hrun.
Qed.

(** In exact arithmetic an absolute value is at or above every tolerance
    that is not positive. *)
Lemma Qc_abs_ge_nonpositive (x lim : Qc) :
  (lim <= 0)%Qc -> ge (absv x) lim = true.
Proof.
  intros Hlim. cbn [ge absv Number_Qc]. apply Qle_bool_iff.
  apply (Qcle_trans lim 0 (Qcabs x)); [exact Hlim | apply Qcabs_nonneg].
Qed.

(** X7.  In exact arithmetic a tolerance that is zero or negative is never
    met, not even at a fixed point or at a root: in the unbounded mode [fp]
    never returns, and [nr] either never returns or ends in
    [ZeroDivisionError]. *)
Theorem nonpositive_tolerance_is_never_met (lim : Qc) :
  (lim <= 0)%Qc ->
  (forall (fuel : nat) (m : Qc -> Qc) (x0 : Qc),
     Numan.fp fuel m x0 0 lim = None)
  /\ (forall (fuel : nat) (m dm : Qc -> Qc) (x0 : Qc),
        Numan.nr fuel m dm x0 0 lim = None
        \/ Numan.nr fuel m dm x0 0 lim = Some (Raise ZeroDivisionError)).
Proof.
  intros Hlim. split.
  - intros fuel m x0. unfold Numan.fp. cbn [Z.eqb].
    apply fp_while_starves. intros j _.
    now apply Qc_abs_ge_nonpositive.
  - intros fuel m dm x0. unfold Numan.nr. cbn [Z.eqb].
    apply nr_while_no_table. intros x. now apply Qc_abs_ge_nonpositive.
Qed.

(** Started at the fixed point [2] of [x/2 + 1] and at the root [0] of the
    identity, with tolerance [0]. *)
Lemma nonpositive_tolerance_is_never_met_witness :
  Numan.fp 100 halve_add_one (Qc_of_Z 2) 0 (Qc_of_Z 0) = None
  /\ (Numan.nr 100 (fun x => x) one (Qc_of_Z 0) 0 (Qc_of_Z 0) = None
      \/ Numan.nr 100 (fun x => x) one (Qc_of_Z 0) 0 (Qc_of_Z 0)
         = Some (Raise ZeroDivisionError)).
Proof.
  assert (Hzero : (Qc_of_Z 0 <= 0)%Qc) by (vm_compute; discriminate).
  destruct (nonpositive_tolerance_is_never_met (Qc_of_Z 0) Hzero)
    as (Hfp & Hnr).
  split; [apply Hfp | apply Hnr].
Defined.

(** The map [x + 1] over the rationals moves every point by [1]; the
    constant [1] with derivative [1] never comes below [1]. *)
Lemma unbounded_modes_have_no_step_limit_witness :
  Numan.fp 1000 (fun x : Qc => (x + 1)%Qc) (Qc_of_Z 0) 0 (Qc_of_Z 1) = None
  /\ Numan.nr 1000 one one (Qc_of_Z 0) 0 (Qc_of_Z 1) = None.
Proof.
  destruct (unbounded_modes_have_no_step_limit
              (fun x : Qc => (x + 1)%Qc) one (Qc_of_Z 0) (Qc_of_Z 1))
    as (Hfp & _).
  destruct (unbounded_modes_have_no_step_limit
              (one : Qc -> Qc) one (Qc_of_Z 0) (Qc_of_Z 1))
    as (_ & Hnr).
  split.
  - apply Hfp. intros j. unfold displacement. cbn [sub absv ge Number_Qc].
    replace (picard (fun x : Qc => x + 1) (Qc_of_Z 0) j + 1
             - picard (fun x : Qc => x + 1) (Qc_of_Z 0) j)%Qc
      with (Q2Qc 1) by ring.
    reflexivity.
  - apply Hnr; intros j; reflexivity.
Defined.

(** From [1] the derivative [2x] of [x^2 - 2] is not zero on the way; from
    [0] it is zero at once. *)
Lemma nr_bounded_trace_or_zero_division_witness :
  Numan.nr 0 sq2 dsq2 0%float 5 0.001%float = Some (Raise ZeroDivisionError)
  /\ Numan.nr 0 sq2 dsq2 1%float 2 0.001%float
     = Some (Ok (nr_trace sq2 dsq2 1%float 2)).
Proof.
  split.
  - destruct (nr_bounded_trace_or_zero_division
                0 sq2 dsq2 0%float 0.001%float 5 eq_refl)
      as [(Hnone & _) | (k & _ & _ & _ & Hraise)]; [| exact Hraise].
    specialize (Hnone 0%nat ltac:(vm_compute; lia)). discriminate Hnone.
  - destruct (nr_bounded_trace_or_zero_division
                0 sq2 dsq2 1%float 0.001%float 2 eq_refl)
      as [(_ & Hrun & _) | (k & Hk & Hzero & _)]; [exact Hrun |].
    destruct k as [| [| k]]; [discriminate Hzero | discriminate Hzero |].
    vm_compute in Hk. lia.
Defined.

(** The run on [x^2 - 2] from [1] with tolerance [0.001] in binary64 stops
    at [x_3]. *)
Lemma nr_unbounded_stops_below_tolerance_witness :
  exists (tr : Numan.table) (k : nat),
    Numan.nr 5 sq2 dsq2 1%float 0 0.001%float = Some (Ok tr)
    /\ tr = nr_trace sq2 dsq2 1%float k
    /\ ge (magnitude sq2 (newton sq2 dsq2 1%float k)) 0.001%float = false.
Proof.
  destruct (Numan.nr 5 sq2 dsq2 1%float 0 0.001%float) as [[tr | err] |] eqn:Hrun;
    [| vm_compute in Hrun; discriminate Hrun
     | vm_compute in Hrun; discriminate Hrun].
  destruct (nr_unbounded_stops_below_tolerance 5 sq2 dsq2 1%float 0.001%float)
    as (Hreturns & _).
  destruct (Hreturns tr Hrun) as (k & _ & _ & Htr & _ & Hstop).
  exists tr, k. split; [reflexivity |]. split; assumption.
Defined.

Section ExactSums.
Local Open Scope Qc_scope.

(** A sum of differences collapses to the difference of the ends. *)
Lemma sum_from_telescope (F term : Z -> Qc) (lo : Z) (k : nat) :
  (forall i, (lo <= i < lo + Z.of_nat k)%Z -> term i = F (i + 1)%Z - F i) ->
  sum_from term lo k = F (lo + Z.of_nat k)%Z - F lo.
Proof.
  induction k as [| k IH]; intros Hterm.
  - cbn [sum_from of_int Number_Qc Z.of_nat]. rewrite Z.add_0_r, Qc_of_Z_0.
    ring.
  - cbn [sum_from add Number_Qc]. rewrite IH by (intros i Hi; apply Hterm; lia).
    rewrite Hterm by lia.
    replace (lo + Z.of_nat (S k))%Z with (lo + Z.of_nat k + 1)%Z by lia.
    ring.
Qed.

Lemma sum_from_combine (c d : Qc) (f g : Z -> Qc) (lo : Z) (k : nat) :
  sum_from (fun i => c * f i + d * g i) lo k
  = c * sum_from f lo k + d * sum_from g lo k.
Proof.
  induction k as [| k IH].
  - cbn [sum_from of_int Number_Qc]. rewrite Qc_of_Z_0. ring.
  - cbn [sum_from add Number_Qc]. rewrite IH. ring.
Qed.

Lemma sample_first (a h : Qc) : sample a h 0 = a.
Proof. unfold sample. cbn [add mul of_int Number_Qc]. rewrite Qc_of_Z_0. ring. Qed.

Lemma sample_last (a b : Qc) (n : Z) :
  (n <> 0)%Z -> sample a ((b - a) / Qc_of_Z n) n = b.
Proof.
  intros Hn. unfold sample. cbn [add mul of_int Number_Qc].
  field. now apply Qc_of_Z_nonzero.
Qed.

Lemma sample_next (a h : Qc) (i : Z) : sample a h (i + 1) = sample a h i + h.
Proof.
  unfold sample. cbn [add mul of_int Number_Qc].
  rewrite Qc_of_Z_add, Qc_of_Z_1. ring.
Qed.

Lemma sample_previous (a h : Qc) (i : Z) : sample a h (i - 1) = sample a h i - h.
Proof.
  unfold sample. cbn [add mul of_int Number_Qc].
  rewrite Qc_of_Z_sub, Qc_of_Z_1. ring.
Qed.

(** One trapezoid under an affine integrand is the increment of its
    antiderivative. *)
Lemma trapezoid_affine_panel (c d x h : Qc) :
  h * Q2Qc (1 # 2) * (affine c d x + affine c d (x - h))
  = affine_primitive c d x - affine_primitive c d (x - h).
Proof.
  unfold affine, affine_primitive. cbn [add mul Number_Qc].
  rewrite Qc_half, Qc_of_Z_2. field. Qc_nonzero.
Qed.

Lemma midpoint_affine_panel (c d x h : Qc) :
  affine c d ((x + (x + h)) / Qc_of_Z 2) * h
  = affine_primitive c d (x + h) - affine_primitive c d x.
Proof.
  unfold affine, affine_primitive. cbn [add mul Number_Qc].
  rewrite Qc_of_Z_2. field. Qc_nonzero.
Qed.

(** One pair of subintervals of Simpson's rule under a cubic integrand is
    the increment of its antiderivative. *)
Lemma simpson_cubic_panel (c3 c2 c1 c0 x h : Qc) :
  h / Qc_of_Z 3
  * (cubic c3 c2 c1 c0 (x - h - h) + Qc_of_Z 4 * cubic c3 c2 c1 c0 (x - h)
     + cubic c3 c2 c1 c0 x)
  = cubic_primitive c3 c2 c1 c0 x - cubic_primitive c3 c2 c1 c0 (x - h - h).
Proof.
  unfold cubic, cubic_primitive. cbn [add mul Number_Qc].
  rewrite Qc_of_Z_2, Qc_of_Z_3, Qc_of_Z_4. field. Qc_nonzero.
Qed.

End ExactSums.

Section ExactRules.
Local Open Scope Qc_scope.

Lemma t_affine (c d a b : Qc) (n : Z) :
  (0 < n)%Z ->
  Numan.t (affine c d) a b n
  = Ok (affine_primitive c d b - affine_primitive c d a).
Proof.
  intros Hn. rewrite t_sum by exact Hn. cbv zeta. f_equal.
  cbn [mul div sub add of_int lit_half Number_Qc].
  set (h := (b - a) / Qc_of_Z n).
  rewrite (sum_from_telescope
             (fun i => affine_primitive c d (sample a h (i - 1)))).
  - replace (1 + Z.of_nat (Z.to_nat n) - 1)%Z with n by lia.
    change (1 - 1)%Z with 0%Z.
    unfold h. now rewrite sample_last, sample_first by lia.
  - intros i _. replace (i + 1 - 1)%Z with i by lia.
    rewrite sample_previous. apply trapezoid_affine_panel.
Qed.

Lemma mr_affine (c d a b : Qc) (n : Z) :
  (0 < n)%Z ->
  Numan.mr (affine c d) a b n
  = Ok (affine_primitive c d b - affine_primitive c d a).
Proof.
  intros Hn. rewrite mr_sum by exact Hn. cbv zeta. f_equal.
  cbn [mul div sub add of_int Number_Qc].
  set (h := (b - a) / Qc_of_Z n).
  rewrite (sum_from_telescope (fun i => affine_primitive c d (sample a h i))).
  - replace (0 + Z.of_nat (Z.to_nat n))%Z with n by lia.
    unfold h. now rewrite sample_last, sample_first by lia.
  - intros i _. rewrite sample_next. apply midpoint_affine_panel.
Qed.

End ExactRules.

(** X10.  In exact arithmetic the trapezoidal rule and the midpoint rule are
    exact on affine integrands: for every positive number of subintervals
    they return the integral of [c*x + d] over [[a, b]]. *)
Theorem t_and_mr_exact_on_affine (c d a b : Qc) (n : Z) :
  0 < n ->
  Numan.t (affine c d) a b n
  = Ok (affine_primitive c d b - affine_primitive c d a)%Qc
  /\ Numan.mr (affine c d) a b n
     = Ok (affine_primitive c d b - affine_primitive c d a)%Qc.
Proof. intros Hn. split; [now apply t_affine | now apply mr_affine]. Qed.

(** The integral of [x] over [[0, 1]] is [1/2], with seven subintervals. *)
Lemma t_and_mr_exact_on_affine_witness :
  Numan.t (affine (Qc_of_Z 1) (Qc_of_Z 0)) (Qc_of_Z 0) (Qc_of_Z 1) 7
  = Ok (Q2Qc (1 # 2))
  /\ Numan.mr (affine (Qc_of_Z 1) (Qc_of_Z 0)) (Qc_of_Z 0) (Qc_of_Z 1) 7
     = Ok (Q2Qc (1 # 2)).
Proof.
  destruct (t_and_mr_exact_on_affine
              (Qc_of_Z 1) (Qc_of_Z 0) (Qc_of_Z 0) (Qc_of_Z 1) 7 eq_refl)
    as (Ht & Hmr).
  rewrite Ht, Hmr.
  split; apply (f_equal Ok); apply Qc_is_canon; reflexivity.
Defined.

(** X11.  In exact arithmetic Simpson's rule is exact on cubic integrands:
    for every positive even number of subintervals it returns the integral
    of [c3*x^3 + c2*x^2 + c1*x + c0] over [[a, b]]. *)
Theorem s_exact_on_cubic (c3 c2 c1 c0 a b : Qc) (n : Z) :
  0 < n -> Z.even n = true ->
  Numan.s (cubic c3 c2 c1 c0) a b n
  = Ok (VNum (cubic_primitive c3 c2 c1 c0 b
              - cubic_primitive c3 c2 c1 c0 a)%Qc).
Proof.
  intros Hn He.
  assert (Hmod : (n mod 2 = 0)%Z) by now rewrite Zmod_even, He.
  assert (Hhalf : n = (2 * (n / 2))%Z) by (apply Z.div_exact; lia).
  rewrite s_even_sum by assumption. cbv zeta. do 2 f_equal.
  cbn [div sub of_int Number_Qc].
  set (h := ((b - a) / Qc_of_Z n)%Qc).
  rewrite (sum_from_telescope
             (fun i => cubic_primitive c3 c2 c1 c0 (sample a h (2 * (i - 1))))).
  - replace (2 * (1 + Z.of_nat (Z.to_nat (n / 2)) - 1))%Z with n by lia.
    change (2 * (1 - 1))%Z with 0%Z.
    unfold h. now rewrite sample_last, sample_first by lia.
  - intros i _. unfold simpson_term.
    cbn [mul div add of_int Number_Qc].
    replace (2 * (i + 1 - 1))%Z with (2 * i)%Z by lia.
    replace (2 * (i - 1))%Z with (2 * i - 1 - 1)%Z by lia.
    replace (2 * i - 2)%Z with (2 * i - 1 - 1)%Z by lia.
    rewrite !sample_previous. apply simpson_cubic_panel.
Qed.

(** The integral of [x^3] over [[0, 1]] is [1/4], with ten subintervals. *)
Lemma s_exact_on_cubic_witness :
  Numan.s (cubic (Qc_of_Z 1) (Qc_of_Z 0) (Qc_of_Z 0) (Qc_of_Z 0))
          (Qc_of_Z 0) (Qc_of_Z 1) 10
  = Ok (VNum (Q2Qc (1 # 4))).
Proof.
  rewrite (s_exact_on_cubic (Qc_of_Z 1) (Qc_of_Z 0) (Qc_of_Z 0) (Qc_of_Z 0)
             (Qc_of_Z 0) (Qc_of_Z 1) 10 eq_refl eq_refl).
  apply (f_equal (fun v => Ok (VNum v))). apply Qc_is_canon. reflexivity.
Defined.

Section Composition.
Local Open Scope Qc_scope.

(** The partition into [k] subintervals is every other point of the
    partition into [2k], and its midpoints are the points in between. *)
Lemma sample_coarse (a b : Qc) (k i : Z) :
  (k <> 0)%Z ->
  sample a ((b - a) / Qc_of_Z k) i
  = sample a ((b - a) / Qc_of_Z (2 * k)) (2 * i).
Proof.
  intros Hk. unfold sample. cbn [add mul of_int Number_Qc].
  rewrite !Qc_of_Z_mul, Qc_of_Z_2. field.
  Qc_nonzero.
Qed.

Lemma sample_middle (a b : Qc) (k i : Z) :
  (k <> 0)%Z ->
  (sample a ((b - a) / Qc_of_Z k) (i - 1)
   + sample a ((b - a) / Qc_of_Z k) (i - 1 + 1)) / Qc_of_Z 2
  = sample a ((b - a) / Qc_of_Z (2 * k)) (2 * i - 1).
Proof.
  intros Hk. unfold sample. cbn [add mul of_int Number_Qc].
  rewrite !Qc_of_Z_add, !Qc_of_Z_sub, !Qc_of_Z_mul, Qc_of_Z_1, Qc_of_Z_2.
  field. Qc_nonzero.
Qed.

Lemma coarse_step (a b : Qc) (k : Z) :
  (k <> 0)%Z ->
  (b - a) / Qc_of_Z k = (1 + 1) * ((b - a) / Qc_of_Z (2 * k)).
Proof.
  intros Hk. rewrite Qc_of_Z_mul, Qc_of_Z_2. field.
  Qc_nonzero.
Qed.

End Composition.

(** X12.  In exact arithmetic Simpson's rule with [2k] subintervals is the
    weighted mean of the midpoint rule and the trapezoidal rule with [k]
    subintervals: [s = (2 * mr + t) / 3]. *)
Theorem s_is_weighted_mean_of_mr_and_t (m : Qc -> Qc) (a b : Qc) (k : Z) :
  0 < k ->
  exists vm vt : Qc,
    Numan.mr m a b k = Ok vm
    /\ Numan.t m a b k = Ok vt
    /\ Numan.s m a b (2 * k)
       = Ok (VNum ((Qc_of_Z 2 * vm + vt) / Qc_of_Z 3)%Qc).
Proof.
  intros Hk.
  assert (Heven : (2 * k) mod 2 = 0) by (rewrite Z.mul_comm; apply Z_mod_mult).
  rewrite mr_sum, t_sum by exact Hk.
  rewrite s_even_sum by (try exact Heven; lia). cbv zeta.
  eexists. eexists. split; [reflexivity |]. split; [reflexivity |].
  do 2 f_equal. cbn [mul div sub add of_int lit_half Number_Qc].
  replace (2 * k / 2) with k by (rewrite Z.mul_comm, Z.div_mul; lia).
  set (H := ((b - a) / Qc_of_Z k)%Qc).
  set (h := ((b - a) / Qc_of_Z (2 * k))%Qc).
  rewrite <- (sum_from_shift
                (fun i => (m ((sample a H i + sample a H (i + 1)) / Qc_of_Z 2)
                           * H)%Qc) 1 (-1) (Z.to_nat k)).
  change (1 + -1) with 0.
  transitivity
    (Q2Qc (2 # 3)
     * sum_from (fun i => (m ((sample a H (i + -1) + sample a H (i + -1 + 1))
                              / Qc_of_Z 2) * H)%Qc) 1 (Z.to_nat k)
     + Q2Qc (1 # 3)
       * sum_from (fun i => (H * Q2Qc (1 # 2)
                             * (m (sample a H i) + m (sample a H (i - 1))))%Qc)
                  1 (Z.to_nat k))%Qc.
  2:{ rewrite Qc_of_Z_2, Qc_of_Z_3.
      replace (Q2Qc (2 # 3)) with ((1 + 1) / (1 + 1 + 1))%Qc
        by (apply Qc_is_canon; reflexivity).
      replace (Q2Qc (1 # 3)) with (1 / (1 + 1 + 1))%Qc
        by (apply Qc_is_canon; reflexivity).
      field. Qc_nonzero. }
  rewrite <- sum_from_combine. apply sum_from_ext. intros i _.
  unfold simpson_term. cbn [mul div add of_int Number_Qc].
  change (i + -1) with (i - 1).
  unfold H. rewrite (sample_middle a b k i) by lia.
  rewrite (sample_coarse a b k i), (sample_coarse a b k (i - 1)) by lia.
  rewrite (coarse_step a b k) by lia. fold h.
  replace (2 * (i - 1)) with (2 * i - 2) by lia.
  rewrite Qc_half, Qc_of_Z_3, Qc_of_Z_4.
  replace (Q2Qc (2 # 3)) with ((1 + 1) / (1 + 1 + 1))%Qc
    by (apply Qc_is_canon; reflexivity).
  replace (Q2Qc (1 # 3)) with (1 / (1 + 1 + 1))%Qc
    by (apply Qc_is_canon; reflexivity).
  field. Qc_nonzero.
Qed.

(** The three rules on [x^2] over [[0, 1]], two subintervals against
    four. *)
Lemma s_is_weighted_mean_of_mr_and_t_witness :
  exists vm vt : Qc,
    Numan.mr (fun x => x * x)%Qc (Qc_of_Z 0) (Qc_of_Z 1) 2 = Ok vm
    /\ Numan.t (fun x => x * x)%Qc (Qc_of_Z 0) (Qc_of_Z 1) 2 = Ok vt
    /\ Numan.s (fun x => x * x)%Qc (Qc_of_Z 0) (Qc_of_Z 1) (2 * 2)
       = Ok (VNum ((Qc_of_Z 2 * vm + vt) / Qc_of_Z 3)%Qc).
Proof.
  exact (s_is_weighted_mean_of_mr_and_t (fun x => x * x)%Qc
           (Qc_of_Z 0) (Qc_of_Z 1) 2 eq_refl).
Defined.

(** X13.  In exact arithmetic the right rule exceeds the left rule by the
    step times the difference of the integrand at the two bounds: the two
    sums share every sample but the first and the last. *)
Theorem rr_minus_lr_is_end_difference (m : Qc -> Qc) (a b : Qc) (n : Z) :
  0 < n ->
  exists l r : Qc,
    Numan.lr m a b n = Ok l
    /\ Numan.rr m a b n = Ok r
    /\ r = (l + (m b - m a) * ((b - a) / Qc_of_Z n))%Qc.
Proof.
  intros Hn. rewrite lr_sum, rr_sum by exact Hn. cbv zeta.
  eexists. eexists. split; [reflexivity |]. split; [reflexivity |].
  cbn [mul div sub of_int Number_Qc].
  set (h := ((b - a) / Qc_of_Z n)%Qc).
  destruct (Z.to_nat n) as [| k] eqn:Hk; [lia |].
  rewrite (sum_from_peel (fun i => (m (sample a h i) * h)%Qc) 0 k).
  change (0 + 1) with 1.
  cbn [sum_from add Number_Qc].
  replace (1 + Z.of_nat k) with n by lia.
  unfold h. rewrite sample_last, sample_first by lia. ring.
Qed.

Lemma rr_minus_lr_is_end_difference_witness :
  exists l r : Qc,
    Numan.lr (fun x => x * x)%Qc (Qc_of_Z 1) (Qc_of_Z 3) 4 = Ok l
    /\ Numan.rr (fun x => x * x)%Qc (Qc_of_Z 1) (Qc_of_Z 3) 4 = Ok r
    /\ r = (l + (Qc_of_Z 3 * Qc_of_Z 3 - Qc_of_Z 1 * Qc_of_Z 1)
               * ((Qc_of_Z 3 - Qc_of_Z 1) / Qc_of_Z 4))%Qc.
Proof.
  exact (rr_minus_lr_is_end_difference (fun x => x * x)%Qc
           (Qc_of_Z 1) (Qc_of_Z 3) 4 eq_refl).
Defined.

(** X14.  In exact arithmetic every rule is linear in the integrand: on
    [c*f + d*g] it returns [c] times its value on [f] plus [d] times its
    value on [g]. *)
Theorem quadrature_is_linear (f g : Qc -> Qc) (c d a b : Qc) (n : Z) :
  0 < n ->
  let fg := fun x => (c * f x + d * g x)%Qc in
  (exists u v : Qc,
      Numan.lr f a b n = Ok u /\ Numan.lr g a b n = Ok v
      /\ Numan.lr fg a b n = Ok (c * u + d * v)%Qc)
  /\ (exists u v : Qc,
         Numan.rr f a b n = Ok u /\ Numan.rr g a b n = Ok v
         /\ Numan.rr fg a b n = Ok (c * u + d * v)%Qc)
  /\ (exists u v : Qc,
         Numan.mr f a b n = Ok u /\ Numan.mr g a b n = Ok v
         /\ Numan.mr fg a b n = Ok (c * u + d * v)%Qc)
  /\ (exists u v : Qc,
         Numan.t f a b n = Ok u /\ Numan.t g a b n = Ok v
         /\ Numan.t fg a b n = Ok (c * u + d * v)%Qc)
  /\ (Z.even n = true ->
      exists u v : Qc,
        Numan.s f a b n = Ok (VNum u) /\ Numan.s g a b n = Ok (VNum v)
        /\ Numan.s fg a b n = Ok (VNum (c * u + d * v)%Qc)).
Proof.
  intros Hn fg.
  split; [| split; [| split; [| split]]].
  - rewrite !lr_sum by exact Hn. cbv zeta.
    eexists. eexists. split; [reflexivity |]. split; [reflexivity |].
    f_equal. rewrite <- sum_from_combine. apply sum_from_ext. intros i _.
    unfold fg. cbn [mul Number_Qc]. ring.
  - rewrite !rr_sum by exact Hn. cbv zeta.
    eexists. eexists. split; [reflexivity |]. split; [reflexivity |].
    f_equal. rewrite <- sum_from_combine. apply sum_from_ext. intros i _.
    unfold fg. cbn [mul Number_Qc]. ring.
  - rewrite !mr_sum by exact Hn. cbv zeta.
    eexists. eexists. split; [reflexivity |]. split; [reflexivity |].
    f_equal. rewrite <- sum_from_combine. apply sum_from_ext. intros i _.
    unfold fg. cbn [mul Number_Qc]. ring.
  - rewrite !t_sum by exact Hn. cbv zeta.
    eexists. eexists. split; [reflexivity |]. split; [reflexivity |].
    f_equal. rewrite <- sum_from_combine. apply sum_from_ext. intros i _.
    unfold fg. cbn [mul add Number_Qc]. ring.
  - intros He.
    assert (Hmod : n mod 2 = 0) by now rewrite Zmod_even, He.
    rewrite !s_even_sum by assumption. cbv zeta.
    eexists. eexists. split; [reflexivity |]. split; [reflexivity |].
    do 2 f_equal. rewrite <- sum_from_combine. apply sum_from_ext. intros i _.
    unfold simpson_term, fg. cbn [mul add Number_Qc]. ring.
Qed.

Lemma quadrature_is_linear_witness :
  exists u v : Qc,
    Numan.t (fun x => x * x)%Qc (Qc_of_Z 0) (Qc_of_Z 1) 3 = Ok u
    /\ Numan.t (fun x => x)%Qc (Qc_of_Z 0) (Qc_of_Z 1) 3 = Ok v
    /\ Numan.t (fun x => Qc_of_Z 3 * (x * x) + Qc_of_Z 5 * x)%Qc
               (Qc_of_Z 0) (Qc_of_Z 1) 3
       = Ok (Qc_of_Z 3 * u + Qc_of_Z 5 * v)%Qc.
Proof.
  destruct (quadrature_is_linear (fun x => x * x)%Qc (fun x => x)
              (Qc_of_Z 3) (Qc_of_Z 5) (Qc_of_Z 0) (Qc_of_Z 1) 3 eq_refl)
    as (_ & _ & _ & Ht & _).
  exact Ht.
Defined.

(** X15.  In exact arithmetic the Euler stepper is exact for a constant
    slope, [x0 + c*(b - a)] whatever the number of steps, and for the linear
    equation [y' = c*y] it returns [x0 * (1 + c*h)^n] with [h = (b - a)/n]. *)
Theorem e_on_constant_and_linear_slope (c a b x0 : Qc) (n : Z) :
  0 < n ->
  Numan.e (fun _ => c) a b x0 n = Ok (x0 + c * (b - a))%Qc
  /\ Numan.e (fun y => c * y)%Qc a b x0 n
     = Ok (x0 * (1 + c * ((b - a) / Qc_of_Z n)) ^ Z.to_nat n)%Qc.
Proof.
  intros Hn. rewrite !e_returns_value by exact Hn.
  cbn [div sub of_int Number_Qc].
  set (h := ((b - a) / Qc_of_Z n)%Qc).
  split; f_equal.
  - assert (Hk : forall k : nat,
               euler (fun _ => c) h x0 k
               = (x0 + Qc_of_Z (Z.of_nat k) * (c * h))%Qc).
    { induction k as [| k IH].
      - cbn [euler Z.of_nat]. rewrite Qc_of_Z_0. ring.
      - cbn [euler]. cbv zeta. rewrite IH, Qc_of_Z_succ.
        cbn [add mul Number_Qc]. ring. }
    rewrite Hk, Z2Nat.id by lia. unfold h. field. Qc_nonzero.
  - generalize (Z.to_nat n). intros k. induction k as [| k IH].
    + cbn [euler Qcpower]. ring.
    + cbn [euler Qcpower]. cbv zeta. rewrite IH.
      cbn [add mul Number_Qc]. ring.
Qed.

(** Two steps for [y' = y] over [[0, 1]] from [1]: [(1 + 1/2)^2]. *)
Lemma e_on_constant_and_linear_slope_witness :
  Numan.e (fun y => Qc_of_Z 1 * y)%Qc (Qc_of_Z 0) (Qc_of_Z 1) (Qc_of_Z 1) 2
  = Ok (Q2Qc (9 # 4)).
Proof.
  destruct (e_on_constant_and_linear_slope
              (Qc_of_Z 1) (Qc_of_Z 0) (Qc_of_Z 1) (Qc_of_Z 1) 2 eq_refl)
    as (_ & Hlin).
  rewrite Hlin. apply (f_equal Ok). apply Qc_is_canon. reflexivity.
Defined.

Section Reversal.
Local Open Scope Qc_scope.

(** Sums read backwards, from index [0] and from index [1]. *)
Lemma sum_from_reverse_0 (f : Z -> Qc) (k : nat) :
  sum_from (fun i => f (Z.of_nat k - 1 - i)%Z) 0 k = sum_from f 0 k.
Proof.
  rewrite <- (sum_from_reverse f k).
  rewrite <- (sum_from_shift (fun i => f (Z.of_nat k - i)%Z) 0 1 k).
  apply sum_from_ext. intros i _. f_equal. lia.
Qed.

Lemma sum_from_reverse_1 (f : Z -> Qc) (k : nat) :
  sum_from (fun i => f (Z.of_nat k + 1 - i)%Z) 1 k = sum_from f 1 k.
Proof.
  rewrite <- (sum_from_shift f 0 1 k).
  rewrite <- (sum_from_reverse (fun i => f (i + 1)%Z) k).
  apply sum_from_ext. intros i _. f_equal. lia.
Qed.

End Reversal.

(** X16.  In exact arithmetic the trapezoidal rule, the midpoint rule and
    Simpson's rule change sign when the bounds are exchanged. *)
Theorem symmetric_rules_change_sign (m : Qc -> Qc) (a b : Qc) (n : Z) :
  0 < n ->
  (exists v : Qc,
      Numan.t m a b n = Ok v /\ Numan.t m b a n = Ok (- v)%Qc)
  /\ (exists v : Qc,
         Numan.mr m a b n = Ok v /\ Numan.mr m b a n = Ok (- v)%Qc)
  /\ (Z.even n = true ->
      exists v : Qc,
        Numan.s m a b n = Ok (VNum v)
        /\ Numan.s m b a n = Ok (VNum (- v)%Qc)).
Proof.
  intros Hn.
  assert (Hnz : Qc_of_Z n <> Q2Qc 0) by (apply Qc_of_Z_nonzero; lia).
  assert (Hstep : ((a - b) / Qc_of_Z n = - ((b - a) / Qc_of_Z n))%Qc)
    by (field; exact Hnz).
  split; [| split].
  - rewrite !t_sum by exact Hn. cbv zeta.
    eexists. split; [reflexivity |]. f_equal.
    cbn [mul div sub add of_int lit_half Number_Qc].
    set (h := ((b - a) / Qc_of_Z n)%Qc).
    rewrite <- sum_from_opp.
    rewrite <- (sum_from_reverse_1
                  (fun i => (- (h * Q2Qc (1 # 2)
                                * (m (sample a h i) + m (sample a h (i - 1)))))%Qc)
                  (Z.to_nat n)).
    apply sum_from_ext. intros i _.
    rewrite (sample_reversed a b n i), (sample_reversed a b n (i - 1))
      by exact Hn.
    fold h. rewrite Hstep. fold h.
    rewrite Z2Nat.id by lia.
    replace (n + 1 - i) with (n - (i - 1)) by lia.
    replace (n - (i - 1) - 1) with (n - i) by lia.
    ring.
  - rewrite !mr_sum by exact Hn. cbv zeta.
    eexists. split; [reflexivity |]. f_equal.
    cbn [mul div sub add of_int Number_Qc].
    set (h := ((b - a) / Qc_of_Z n)%Qc).
    rewrite <- sum_from_opp.
    rewrite <- (sum_from_reverse_0
                  (fun i => (- (m ((sample a h i + sample a h (i + 1))
                                   / Qc_of_Z 2) * h))%Qc)
                  (Z.to_nat n)).
    apply sum_from_ext. intros i _.
    rewrite (sample_reversed a b n i), (sample_reversed a b n (i + 1))
      by exact Hn.
    fold h. rewrite Hstep. fold h.
    rewrite Z2Nat.id by lia.
    replace (n - 1 - i + 1) with (n - i) by lia.
    replace (n - 1 - i) with (n - (i + 1)) by lia.
    rewrite (Qcplus_comm (sample a h (n - i))).
    ring.
  - intros He.
    assert (Hmod : n mod 2 = 0) by now rewrite Zmod_even, He.
    assert (Hhalf : n = 2 * (n / 2)) by (apply Z.div_exact; lia).
    rewrite !s_even_sum by assumption. cbv zeta.
    eexists. split; [reflexivity |]. do 2 f_equal.
    cbn [div sub of_int Number_Qc].
    set (h := ((b - a) / Qc_of_Z n)%Qc).
    rewrite <- sum_from_opp.
    rewrite <- (sum_from_reverse_1 (fun i => (- simpson_term m a h i)%Qc)
                  (Z.to_nat (n / 2))).
    apply sum_from_ext. intros i _. unfold simpson_term.
    cbn [mul div add of_int Number_Qc].
    rewrite (sample_reversed a b n (2 * i - 2)),
      (sample_reversed a b n (2 * i - 1)), (sample_reversed a b n (2 * i))
      by exact Hn.
    fold h. rewrite Hstep. fold h.
    rewrite Z2Nat.id by lia.
    replace (n - (2 * i - 2)) with (2 * (n / 2 + 1 - i)) by lia.
    replace (n - (2 * i - 1)) with (2 * (n / 2 + 1 - i) - 1) by lia.
    replace (n - 2 * i) with (2 * (n / 2 + 1 - i) - 2) by lia.
    rewrite Qc_of_Z_3. field. Qc_nonzero.
Qed.

Section NewtonMap.
Context {A : Type} `{Number A}.


End NewtonMap.

(** X17.  Every trace a root finder returns starts with the header and the
    row of step [0], which holds the initial value and, for [fp], its
    displacement, for [nr], its magnitude; so a returned trace has at least
    two rows, in either mode and for every iteration count. *)
Theorem traces_start_with_header_and_initial_row {A : Type} `{Number A}
    (fuel : nat) (m dm : A -> A) (x0 lim : A) (n : Z) :
  (forall tr : Numan.table,
     Numan.fp fuel m x0 n lim = Some tr ->
     exists rest : Numan.table,
       tr = Numan.header :: row 0 x0 (displacement m x0) :: rest)
  /\ (forall tr : Numan.table,
        Numan.nr fuel m dm x0 n lim = Some (Ok tr) ->
        exists rest : Numan.table,
          tr = Numan.header :: row 0 x0 (magnitude m x0) :: rest).
Proof.
  split; intros tr Hrun.
  - destruct (Z.eq_dec n 0) as [-> | Hn].
    + unfold Numan.fp in Hrun. cbn [Z.eqb] in Hrun.
      apply fp_while_returns in Hrun. destruct Hrun as (k & _ & _ & _ & ->).
      eexists. reflexivity.
    + rewrite fp_bounded_trace in Hrun by exact Hn.
      injection Hrun as <-. eexists. reflexivity.
  - destruct (Z.lt_trichotomy n 0) as [Hneg | [-> | Hpos]].
    + unfold Numan.nr in Hrun.
      destruct (Z.eqb_spec n 0) as [Hz | _]; [lia |].
      rewrite range_empty in Hrun by lia. cbn [for_each bind] in Hrun.
      injection Hrun as <-. eexists. reflexivity.
    + unfold Numan.nr in Hrun. cbn [Z.eqb] in Hrun.
      apply nr_while_returns in Hrun. destruct Hrun as (k & _ & _ & _ & ->).
      eexists. reflexivity.
    + destruct (first_true (fun j => is_zero (dm (newton m dm x0 j)))
                  (Z.to_nat n)) as [Hnone | (k & Hk & Hzero & Hbefore)].
      * rewrite nr_bounded_trace in Hrun by assumption.
        injection Hrun as <-. eexists. reflexivity.
      * rewrite (nr_bounded_raise fuel m dm x0 n lim k) in Hrun
          by (try assumption; lia).
        discriminate Hrun.
Qed.



(** One bounded step on [x/2 + 1] from [0] in binary64. *)
Lemma traces_start_with_header_and_initial_row_witness :
  exists tr rest : Numan.table,
    Numan.fp 0 halve_add_one 0%float 1 0.5%float = Some tr
    /\ tr = Numan.header :: row 0 0%float 1%float :: rest.
Proof.
  destruct (Numan.fp 0 halve_add_one 0%float 1 0.5%float) as [tr |] eqn:Hrun;
    [| vm_compute in Hrun; discriminate Hrun].
  destruct (traces_start_with_header_and_initial_row
              0 halve_add_one halve_add_one 0%float 0.5%float 1)
    as (Hfp & _).
  destruct (Hfp tr Hrun) as (rest & Hrest).
  exists tr, rest. split; [reflexivity | exact Hrest].
Defined.

Lemma symmetric_rules_change_sign_witness :
  exists v : Qc,
    Numan.t (fun x => x * x)%Qc (Qc_of_Z 1) (Qc_of_Z 3) 4 = Ok v
    /\ Numan.t (fun x => x * x)%Qc (Qc_of_Z 3) (Qc_of_Z 1) 4 = Ok (- v)%Qc.
Proof.
  exact (proj1 (symmetric_rules_change_sign (fun x => x * x)%Qc
                  (Qc_of_Z 1) (Qc_of_Z 3) 4 eq_refl)).
Defined.

Section NewtonAffine.
Local Open Scope Qc_scope.

Lemma Qc_is_zero_false (c : Qc) : c <> 0 -> is_zero c = false.
Proof.
  intros Hc. cbn [is_zero Number_Qc]. unfold Qc_eq_bool.
  destruct (Qc_eq_dec c 0) as [Heq | _]; [contradiction | reflexivity].
Qed.

(** One Newton step on [c*x + d] lands on the root [-d/c], and stays. *)
Lemma newton_affine (c d x0 : Qc) (k : nat) :
  c <> 0 -> newton (affine c d) (fun _ => c) x0 (S k) = - d / c.
Proof.
  intros Hc. induction k as [| k IH].
  - cbn [newton]. cbv zeta. unfold affine. cbn [add sub mul div Number_Qc].
    field. exact Hc.
  - change (newton (affine c d) (fun _ => c) x0 (S (S k)))
      with (sub (newton (affine c d) (fun _ => c) x0 (S k))
                (div (affine c d (newton (affine c d) (fun _ => c) x0 (S k))) c)).
    rewrite IH. unfold affine. cbn [add sub mul div Number_Qc].
    field. exact Hc.
Qed.

Lemma affine_root_magnitude (c d : Qc) :
  c <> 0 -> magnitude (affine c d) (- d / c) = 0.
Proof.
  intros Hc. unfold magnitude, affine. cbn [add mul absv Number_Qc].
  replace (c * (- d / c) + d) with (Q2Qc 0) by (field; exact Hc).
  apply Qc_is_canon. reflexivity.
Qed.

End NewtonAffine.

(** X19.  In exact arithmetic Newton-Raphson solves an affine equation in
    one step.  On [c*x + d] with the derivative [c], [c] not zero, the
    bounded mode returns its [n + 2] rows and the last one holds the root
    [-d/c] with residual [0]; with a positive tolerance the unbounded mode
    returns after at most one step, at most three rows. *)
Theorem nr_solves_affine_in_one_step (c d x0 lim : Qc) :
  c <> Q2Qc 0 ->
  (forall (fuel : nat) (n : Z),
     0 < n ->
     exists tr : Numan.table,
       Numan.nr fuel (affine c d) (fun _ => c) x0 n lim = Some (Ok tr)
       /\ length tr = (Z.to_nat n + 2)%nat
       /\ row_approx (last tr []) = Some (- d / c)%Qc
       /\ row_residual (last tr []) = Some (Q2Qc 0))
  /\ ((Q2Qc 0 < lim)%Qc ->
      forall fuel : nat,
        (2 <= fuel)%nat ->
        exists tr : Numan.table,
          Numan.nr fuel (affine c d) (fun _ => c) x0 0 lim = Some (Ok tr)
          /\ (length tr <= 3)%nat).
Proof.
  intros Hc.
  assert (Hnz : is_zero c = false) by now apply Qc_is_zero_false.
  split.
  - intros fuel n Hn. eexists.
    split; [apply nr_bounded_trace; [exact Hn | intros j _; exact Hnz] |].
    split.
    + unfold nr_trace. cbn [length]. rewrite length_map, length_seq. lia.
    + unfold nr_trace. rewrite last_of_rows. cbn [row row_approx row_residual].
      destruct (Z.to_nat n) as [| k] eqn:Hk; [lia |].
      rewrite newton_affine by exact Hc.
      now rewrite affine_root_magnitude.
  - intros Hlim fuel Hfuel.
    assert (Hstop : ge (magnitude (affine c d)
                          (newton (affine c d) (fun _ => c) x0 1)) lim = false).
    { rewrite newton_affine, affine_root_magnitude by exact Hc.
      cbn [ge Number_Qc].
      destruct (Qle_bool lim (Q2Qc 0)) eqn:Hle; [| reflexivity].
      apply Qle_bool_iff in Hle. exfalso.
      apply (Qlt_not_le _ _ Hlim). exact Hle. }
    destruct (ge (magnitude (affine c d) x0) lim) eqn:Hfirst.
    + exists (nr_trace (affine c d) (fun _ => c) x0 1). split.
      * apply nr_unbounded_trace; [| | exact Hstop | lia].
        -- intros [| j] Hj; [exact Hfirst | lia].
        -- intros j _. exact Hnz.
      * cbn [nr_trace length map seq]. lia.
    + exists (nr_trace (affine c d) (fun _ => c) x0 0). split.
      * apply nr_unbounded_trace; [lia | lia | exact Hfirst | lia].
      * cbn [nr_trace length map seq]. lia.
Qed.

(** [3x - 6] from [10]: the root is [2]. *)
Lemma nr_solves_affine_in_one_step_witness :
  exists tr : Numan.table,
    Numan.nr 0 (affine (Qc_of_Z 3) (Qc_of_Z (-6))) (fun _ => Qc_of_Z 3)
             (Qc_of_Z 10) 4 (Qc_of_Z 1)
    = Some (Ok tr)
    /\ length tr = 6%nat
    /\ row_approx (last tr []) = Some (- Qc_of_Z (-6) / Qc_of_Z 3)%Qc
    /\ row_residual (last tr []) = Some (Q2Qc 0).
Proof.
  assert (Hc : Qc_of_Z 3 <> Q2Qc 0) by (apply Qc_of_Z_nonzero; lia).
  destruct (nr_solves_affine_in_one_step
              (Qc_of_Z 3) (Qc_of_Z (-6)) (Qc_of_Z 10) (Qc_of_Z 1) Hc)
    as (Hbounded & _).
  exact (Hbounded 0%nat 4 eq_refl).
Defined.
